(** * Argos: a concurrent TCP connect scanner (argos.go)

    A shallow embedding of the scanning engine of [argos.go] and the
    properties of its port-set resolver ([parsePortRange]), its probe
    ([scanPort]) and the scheduler/aggregator of [main].

    Conventions.
    - A Go [string] is a sequence of bytes: [String.string].
    - A Go [int] is the 64-bit signed integer of the usual targets, held in
      [Z] with its bounds [min_int]/[max_int] and wrap-around [wrap_int].
    - A [time.Duration] is an [int64] count of nanoseconds, held in [Z].
    - Functions of the Go standard library ([strings.Split],
      [strings.TrimSpace], [strings.Contains], [strconv.Atoi], the [%d] verb
      of [fmt], [sort.Slice]) are modelled after their documented behaviour.
    - Output on standard output is not part of the model. *)

From Stdlib Require Import String Ascii ZArith NArith List Bool Lia PeanoNat.
From Stdlib Require Import Permutation Sorted.
Import ListNotations.

Open Scope string_scope.
Open Scope Z_scope.

(* ================================================================== *)
(** * Package [strings] *)

(** [strings.Contains(s, sep)] for a one-byte [sep] (the source only
    searches for ["-"]). *)
Fixpoint Contains (s : string) (sep : ascii) : bool :=
  match s with
  | EmptyString => false
  | String c s' => Ascii.eqb c sep || Contains s' sep
  end.

(** [strings.Split(s, sep)] for a one-byte [sep] (the source splits on [","]
    and on ["-"]): the substrings between the occurrences of [sep], one more
    than there are occurrences. *)
Fixpoint Split (s : string) (sep : ascii) : list string :=
  match s with
  | EmptyString => [EmptyString]
  | String c s' =>
      if Ascii.eqb c sep then EmptyString :: Split s' sep
      else match Split s' sep with
           | [] => [String c EmptyString]
           | t :: ts => String c t :: ts
           end
  end.

(** The six ASCII bytes of [unicode.IsSpace]: TAB, LF, VT, FF, CR, space. *)
Definition ascii_space (b : N) : bool :=
  ((9 <=? b) && (b <=? 13) || (b =? 32))%N.

(** The three-byte UTF-8 encodings of white space: U+1680, U+2000..U+200A,
    U+2028, U+2029, U+202F, U+205F and U+3000. *)
Definition space3 (b0 b1 b2 : N) : bool :=
  ((b0 =? 0xE1) && (b1 =? 0x9A) && (b2 =? 0x80)
   || (b0 =? 0xE2) && (b1 =? 0x80)
      && ((0x80 <=? b2) && (b2 <=? 0x8A)
          || (b2 =? 0xA8) || (b2 =? 0xA9) || (b2 =? 0xAF))
   || (b0 =? 0xE2) && (b1 =? 0x81) && (b2 =? 0x9F)
   || (b0 =? 0xE3) && (b1 =? 0x80) && (b2 =? 0x80))%N.

(** The two-byte encodings: U+0085 and U+00A0. *)
Definition space2 (b0 b1 : N) : bool :=
  ((b0 =? 0xC2) && ((b1 =? 0x85) || (b1 =? 0xA0)))%N.

(** Number of bytes of the white-space rune [s] starts with; 0 when the
    first rune of [s] is not white space (or is not valid UTF-8). *)
Definition space_width (s : string) : nat :=
  match s with
  | EmptyString => 0
  | String c0 s1 =>
      if ascii_space (N_of_ascii c0) then 1
      else match s1 with
           | EmptyString => 0
           | String c1 s2 =>
               if space2 (N_of_ascii c0) (N_of_ascii c1) then 2
               else match s2 with
                    | EmptyString => 0
                    | String c2 _ =>
                        if space3 (N_of_ascii c0) (N_of_ascii c1)
                             (N_of_ascii c2)
                        then 3 else 0
                    end
           end
  end%nat.

(** The same for the last rune of a string, read on the reversed string:
    the first byte of [s] is the last byte of the original. *)
Definition space_width_last (s : string) : nat :=
  match s with
  | EmptyString => 0
  | String c0 s1 =>
      if ascii_space (N_of_ascii c0) then 1
      else match s1 with
           | EmptyString => 0
           | String c1 s2 =>
               if space2 (N_of_ascii c1) (N_of_ascii c0) then 2
               else match s2 with
                    | EmptyString => 0
                    | String c2 _ =>
                        if space3 (N_of_ascii c2) (N_of_ascii c1)
                             (N_of_ascii c0)
                        then 3 else 0
                    end
           end
  end%nat.

(** Drops runes from the front while [width] recognises one; [skip] counts
    the bytes of the current rune that are still to be dropped. *)
Fixpoint trim_by (width : string -> nat) (skip : nat) (s : string) : string :=
  match s with
  | EmptyString => EmptyString
  | String _ s' =>
      match skip with
      | S k => trim_by width k s'
      | O => match width s with
             | O => s
             | S k => trim_by width k s'
             end
      end
  end.

Fixpoint string_rev (s : string) : string :=
  match s with
  | EmptyString => EmptyString
  | String c s' => string_rev s' ++ String c EmptyString
  end.

Definition TrimLeftSpace (s : string) : string := trim_by space_width 0 s.

Definition TrimRightSpace (s : string) : string :=
  string_rev (trim_by space_width_last 0 (string_rev s)).

(** [strings.TrimSpace]: all leading and trailing white space, as defined by
    Unicode, removed. *)
Definition TrimSpace (s : string) : string := TrimRightSpace (TrimLeftSpace s).

(* ================================================================== *)
(** * Package [strconv] and the [%d] verb *)

Definition max_int : Z := 2 ^ 63 - 1.
Definition min_int : Z := - 2 ^ 63.

(** Two's complement wrap-around of a 64-bit [int]. *)
Definition wrap_int (z : Z) : Z := (z - min_int) mod 2 ^ 64 + min_int.

Definition digit_val (ch : ascii) : option Z :=
  let b := N_of_ascii ch in
  if ((48 <=? b) && (b <=? 57))%N then Some (Z.of_N b - 48) else None.

(** The digit loop: [n = n*10 + int(ch - '0')], failing on a non-digit. *)
Fixpoint atoi_digits (s : string) (n : Z) : option Z :=
  match s with
  | EmptyString => Some n
  | String ch s' =>
      match digit_val ch with
      | None => None
      | Some d => atoi_digits s' (n * 10 + d)
      end
  end.

(** [strconv.Atoi]: an optional sign, then one or more decimal digits; the
    value must fit an [int].  [None] stands for a non-nil error. *)
Definition Atoi (s : string) : option Z :=
  match s with
  | EmptyString => None
  | String c rest =>
      let neg := Ascii.eqb c "-" in
      let digits := if neg || Ascii.eqb c "+" then rest else s in
      match digits with
      | EmptyString => None
      | _ =>
          match atoi_digits digits 0 with
          | None => None
          | Some n =>
              let v := if neg then - n else n in
              if (min_int <=? v) && (v <=? max_int) then Some v else None
          end
      end
  end.

Definition digit_char (d : Z) : ascii := ascii_of_N (48 + Z.to_N d).

(** Decimal digits of a non-negative number, least significant first, pushed
    in front of [acc]; [fuel] bounds the number of digits. *)
Fixpoint utoa (fuel : nat) (n : Z) (acc : string) : string :=
  match fuel with
  | O => acc
  | S f =>
      let acc' := String (digit_char (n mod 10)) acc in
      if n <? 10 then acc' else utoa f (n / 10) acc'
  end.

Definition digits_bound (n : Z) : nat := S (Z.to_nat (Z.log2 n)).

(** What [%d] prints for an [int]. *)
Definition format_d (n : Z) : string :=
  if n <? 0 then String "-" (utoa (digits_bound (- n)) (- n) EmptyString)
  else utoa (digits_bound n) n EmptyString.

(* ================================================================== *)
(** * The port-set resolver: [parsePortRange] *)

(** One constructor for each [fmt.Errorf] of [parsePortRange], holding the
    arguments of the format. *)
Inductive PortError : Type :=
| ErrRangeFormat (r : string)
| ErrStartPort (part : string)
| ErrEndPort (part : string)
| ErrRangeOrder (start end_ : Z)
| ErrPort (r : string).

(** The text of the error. *)
Definition Error (e : PortError) : string :=
  match e with
  | ErrRangeFormat r => "formato de range inválido: " ++ r
  | ErrStartPort part => "porta inicial inválida: " ++ part
  | ErrEndPort part => "porta final inválida: " ++ part
  | ErrRangeOrder start end_ =>
      "porta inicial maior que porta final: "
        ++ format_d start ++ " > " ++ format_d end_
  | ErrPort r => "porta inválida: " ++ r
  end.

(** [for port := start; port <= end; port++ { ports = append(ports, port) }].
    [None] when [fuel] iterations do not reach the exit of the loop. *)
Fixpoint range_loop (fuel : nat) (port end_ : Z) (ports : list Z)
  : option (list Z) :=
  match fuel with
  | O => None
  | S f =>
      if port <=? end_
      then range_loop f (wrap_int (port + 1)) end_ (ports ++ [port])
      else Some ports
  end.

(** The body of [for _, r := range ranges].  The result is the pair
    [(ports, err)] the function returns. *)
Fixpoint parse_tokens (fuel : nat) (ranges : list string) (ports : list Z)
  : option (list Z * option PortError) :=
  match ranges with
  | [] => Some (ports, None)
  | r0 :: rest =>
      let r := TrimSpace r0 in
      if Contains r "-" then
        match Split r "-" with
        | [p0; p1] =>
            match Atoi p0 with
            | None => Some ([], Some (ErrStartPort p0))
            | Some start =>
                match Atoi p1 with
                | None => Some ([], Some (ErrEndPort p1))
                | Some end_ =>
                    if start >? end_
                    then Some ([], Some (ErrRangeOrder start end_))
                    else
                      match range_loop fuel start end_ ports with
                      | None => None
                      | Some ports' => parse_tokens fuel rest ports'
                      end
                end
            end
        | _ => Some ([], Some (ErrRangeFormat r))
        end
      else
        match Atoi r with
        | None => Some ([], Some (ErrPort r))
        | Some port => parse_tokens fuel rest (ports ++ [port])
        end
  end.

(** [parsePortRange]; [fuel] bounds the iterations of each range loop. *)
Definition parsePortRange (fuel : nat) (portRange : string)
  : option (list Z * option PortError) :=
  if String.eqb portRange EmptyString then Some ([], None)
  else parse_tokens fuel (Split portRange ",") [].

(* ================================================================== *)
(** * The probe: [scanPort] *)

(** [commonPorts]: the well-known port table. *)
Definition commonPorts_table : list (Z * string) :=
  [ (21, "FTP"); (22, "SSH"); (23, "Telnet"); (25, "SMTP"); (53, "DNS");
    (80, "HTTP"); (110, "POP3"); (111, "RPC"); (135, "MSRPC");
    (139, "NetBIOS"); (143, "IMAP"); (443, "HTTPS"); (445, "SMB");
    (993, "IMAPS"); (995, "POP3S"); (1723, "PPTP"); (3306, "MySQL");
    (3389, "RDP"); (5900, "VNC"); (8080, "HTTP-Proxy") ].

Fixpoint map_lookup (m : list (Z * string)) (k : Z) : option string :=
  match m with
  | [] => None
  | (k', v) :: m' => if k =? k' then Some v else map_lookup m' k
  end.

(** [service, ok := commonPorts[port]] *)
Definition commonPorts (port : Z) : option string :=
  map_lookup commonPorts_table port.

Record PortResult : Type := mkPortResult {
  Port : Z;
  State : string;
  Service : string
}.

Definition Duration : Type := Z.
Definition Millisecond : Duration := 1000000.
Definition defaultTimeout : Duration := 500 * Millisecond.

(** The error of a failed [Dial]: a value that implements [net.Error], with
    the answer of its [Timeout()] method, or any other error value. *)
Inductive DialError : Type :=
| NetError (timeout : bool)
| OtherError.

(** A connection, as far as [scanPort] uses it: whether
    [SetReadDeadline] returns an error for a deadline that many nanoseconds
    ahead, and the pair [(n, err != nil)] that [Read] returns for a buffer
    of the given length. *)
Record Conn : Type := mkConn {
  SetReadDeadline : Duration -> bool;
  Read : nat -> Z * bool
}.

(** The network: what [Dialer{Timeout: timeout}.Dial("tcp", address)]
    returns, the pair [(conn, err)] with [None] for [nil]. *)
Definition Network : Type :=
  string -> Duration -> option Conn * option DialError.

(** The calls [scanPort] makes on the network, in order. *)
Inductive NetEvent : Type :=
| EvDial (address : string) (timeout : Duration)
| EvSetReadDeadline (ahead : Duration)
| EvRead (buflen : nat)
| EvClose.

Definition with_State (r : PortResult) (st : string) : PortResult :=
  {| Port := Port r; State := st; Service := Service r |}.

Definition with_Service (r : PortResult) (sv : string) : PortResult :=
  {| Port := Port r; State := State r; Service := sv |}.

(** [address := fmt.Sprintf("%s:%d", host, port)] *)
Definition address (host : string) (port : Z) : string :=
  host ++ ":" ++ format_d port.

(** [scanPort], with the trace of its network calls. *)
Definition scanPort_trace (net : Network) (host : string) (port : Z)
    (timeout : Duration) : PortResult * list NetEvent :=
  let result := {| Port := port; State := "closed"; Service := "unknown" |} in
  let dial := EvDial (address host port) timeout in
  match net (address host port) timeout with
  | (Some conn, None) =>
      let result := with_State result "open" in
      match commonPorts port with
      | Some service => (with_Service result service, [dial; EvClose])
      | None =>
          let readTimeout := 200 * Millisecond in
          if SetReadDeadline conn readTimeout
          then (result, [dial; EvSetReadDeadline readTimeout; EvClose])
          else
            let buff := 1024%nat in
            let io := [dial; EvSetReadDeadline readTimeout; EvRead buff;
                       EvClose] in
            if snd (Read conn buff) then (result, io)
            else (with_Service result "custom-service", io)
      end
  | (_, err) =>
      match err with
      | Some (NetError true) => (with_State result "filtered", [dial])
      | _ => (result, [dial])
      end
  end.

Definition scanPort (net : Network) (host : string) (port : Z)
    (timeout : Duration) : PortResult :=
  fst (scanPort_trace net host port timeout).

(* ================================================================== *)
(** * The scheduler and the aggregator: the goroutines of [main]

    The scan of [main] (lines 306 to 348) as an interleaving of the main
    goroutine, the collector goroutine and one goroutine per port.  A step
    is one operation on the shared objects: the semaphore [sem] (a channel
    of capacity [threads]), the [sync.WaitGroup] [wg], the unbuffered
    channels [resultsChan] and [done], and the slice [results]. *)

(** A scan: the capacity of [sem] (a natural number: [make] panics on a
    negative capacity), the resolved ports, and the result the probe of the
    [i]-th goroutine produces for its port. *)
Record Scan : Type := mkScan {
  threads : nat;
  ports : list Z;
  probe : nat -> Z -> PortResult
}.

(** Program points of the main goroutine. *)
Inductive MainPC : Type :=
| MLoop (i : nat)               (* head of [for _, port := range ports] *)
| MAcquire (i : nat) (port : Z) (* at [sem <- struct{}{}] *)
| MGo (i : nat) (port : Z)      (* at [go func(p int) {...}(port)] *)
| MWait                         (* at [wg.Wait()] *)
| MClose                        (* at [close(resultsChan)] *)
| MRecvDone                     (* at [<-done] *)
| MJoined.                      (* past [<-done]: the scan is complete *)

(** Program points of a scanning goroutine. *)
Inductive WorkerPC : Type :=
| WScan                         (* running [scanPort] *)
| WSend (result : PortResult)   (* at [resultsChan <- result] *)
| WRelease                      (* deferred [<-sem] *)
| WDone                         (* deferred [wg.Done()] *)
| WExit.

Record Worker : Type := mkWorker {
  arg_p : Z;                    (* the argument [p] *)
  pc : WorkerPC
}.

(** Program points of the collector goroutine. *)
Inductive CollectorPC : Type :=
| CRecv                         (* at [range resultsChan] *)
| CProc (result : PortResult)   (* in the body of the loop *)
| CSendDone                     (* at [done <- true] *)
| CExit.

Record GoState : Type := mkState {
  main_pc : MainPC;
  workers : list Worker;        (* the goroutines launched so far *)
  collector : CollectorPC;
  sem : nat;                    (* elements queued in [sem] *)
  wg : nat;                     (* counter of [wg] *)
  closed : bool;                (* [resultsChan] is closed *)
  results : list PortResult;    (* the slice [results] *)
  accepted : list (nat * PortResult)
    (* history: the values the collector received from [resultsChan],
       each with the index of the goroutine that sent it *)
}.

Inductive Outcome : Type :=
| Next (s : GoState)
| Blocked
| Panic.

Definition init : GoState :=
  {| main_pc := MLoop 0; workers := []; collector := CRecv; sem := 0;
     wg := 0; closed := false; results := []; accepted := [] |}.

Fixpoint update {A : Type} (l : list A) (i : nat) (x : A) : list A :=
  match l, i with
  | [], _ => []
  | _ :: t, O => x :: t
  | h :: t, S j => h :: update t j x
  end.

Definition is_open (r : PortResult) : bool := String.eqb (State r) "open".

Definition main_step (cfg : Scan) (s : GoState) : Outcome :=
  match main_pc s with
  | MLoop i =>
      match nth_error (ports cfg) i with
      | Some port =>
          (* wg.Add(1) *)
          Next {| main_pc := MAcquire i port; workers := workers s;
                  collector := collector s; sem := sem s; wg := S (wg s);
                  closed := closed s; results := results s;
                  accepted := accepted s |}
      | None =>
          Next {| main_pc := MWait; workers := workers s;
                  collector := collector s; sem := sem s; wg := wg s;
                  closed := closed s; results := results s;
                  accepted := accepted s |}
      end
  | MAcquire i port =>
      (* sem <- struct{}{} : blocks while the buffer is full *)
      if (sem s <? threads cfg)%nat
      then Next {| main_pc := MGo i port; workers := workers s;
                   collector := collector s; sem := S (sem s); wg := wg s;
                   closed := closed s; results := results s;
                   accepted := accepted s |}
      else Blocked
  | MGo i port =>
      Next {| main_pc := MLoop (S i);
              workers := workers s ++ [{| arg_p := port; pc := WScan |}];
              collector := collector s; sem := sem s; wg := wg s;
              closed := closed s; results := results s;
              accepted := accepted s |}
  | MWait =>
      (* wg.Wait() : blocks until the counter is zero *)
      if (wg s =? 0)%nat
      then Next {| main_pc := MClose; workers := workers s;
                   collector := collector s; sem := sem s; wg := wg s;
                   closed := closed s; results := results s;
                   accepted := accepted s |}
      else Blocked
  | MClose =>
      (* close(resultsChan) : closing a closed channel panics *)
      if closed s then Panic
      else Next {| main_pc := MRecvDone; workers := workers s;
                   collector := collector s; sem := sem s; wg := wg s;
                   closed := true; results := results s;
                   accepted := accepted s |}
  | MRecvDone => Blocked (* completes with the collector's [done <- true] *)
  | MJoined => Blocked
  end.

Definition worker_step (cfg : Scan) (i : nat) (s : GoState) : Outcome :=
  match nth_error (workers s) i with
  | None => Blocked
  | Some w =>
      match pc w with
      | WScan =>
          let result := probe cfg i (arg_p w) in
          Next {| main_pc := main_pc s;
                  workers := update (workers s) i
                               {| arg_p := arg_p w; pc := WSend result |};
                  collector := collector s; sem := sem s; wg := wg s;
                  closed := closed s; results := results s;
                  accepted := accepted s |}
      | WSend result =>
          (* resultsChan <- result : a send on a closed channel panics; on
             an unbuffered channel it completes with a receive *)
          if closed s then Panic
          else match collector s with
               | CRecv =>
                   Next {| main_pc := main_pc s;
                           workers := update (workers s) i
                                        {| arg_p := arg_p w; pc := WRelease |};
                           collector := CProc result; sem := sem s;
                           wg := wg s; closed := closed s;
                           results := results s;
                           accepted := accepted s ++ [(i, result)] |}
               | _ => Blocked
               end
      | WRelease =>
          (* <-sem : blocks while the buffer is empty *)
          match sem s with
          | O => Blocked
          | S k =>
              Next {| main_pc := main_pc s;
                      workers := update (workers s) i
                                   {| arg_p := arg_p w; pc := WDone |};
                      collector := collector s; sem := k; wg := wg s;
                      closed := closed s; results := results s;
                      accepted := accepted s |}
          end
      | WDone =>
          (* wg.Done() : a negative counter panics *)
          match wg s with
          | O => Panic
          | S k =>
              Next {| main_pc := main_pc s;
                      workers := update (workers s) i
                                   {| arg_p := arg_p w; pc := WExit |};
                      collector := collector s; sem := sem s; wg := k;
                      closed := closed s; results := results s;
                      accepted := accepted s |}
          end
      | WExit => Blocked
      end
  end.

Definition collector_step (s : GoState) : Outcome :=
  match collector s with
  | CRecv =>
      (* the range loop ends when the channel is closed *)
      if closed s
      then Next {| main_pc := main_pc s; workers := workers s;
                   collector := CSendDone; sem := sem s; wg := wg s;
                   closed := closed s; results := results s;
                   accepted := accepted s |}
      else Blocked (* a value arrives with a worker's send *)
  | CProc result =>
      Next {| main_pc := main_pc s; workers := workers s;
              collector := CRecv; sem := sem s; wg := wg s;
              closed := closed s;
              results := if is_open result then results s ++ [result]
                         else results s;
              accepted := accepted s |}
  | CSendDone =>
      (* done <- true : completes with the [<-done] of main *)
      match main_pc s with
      | MRecvDone =>
          Next {| main_pc := MJoined; workers := workers s;
                  collector := CExit; sem := sem s; wg := wg s;
                  closed := closed s; results := results s;
                  accepted := accepted s |}
      | _ => Blocked
      end
  | CExit => Blocked
  end.

Inductive Thread : Type :=
| TMain
| TWorker (i : nat)
| TCollector.

Definition step (cfg : Scan) (t : Thread) (s : GoState) : Outcome :=
  match t with
  | TMain => main_step cfg s
  | TWorker i => worker_step cfg i s
  | TCollector => collector_step s
  end.

(** Runs the threads named by a schedule, one step each. *)
Fixpoint exec (cfg : Scan) (sched : list Thread) (s : GoState) : Outcome :=
  match sched with
  | [] => Next s
  | t :: rest =>
      match step cfg t s with
      | Next s' => exec cfg rest s'
      | o => o
      end
  end.

(** One scheduling policy, for running the model: the collector first, then
    main, then the goroutines in the order of their launch. *)
Definition all_threads (s : GoState) : list Thread :=
  TCollector :: TMain :: map TWorker (seq 0 (length (workers s))).

Fixpoint first_enabled (cfg : Scan) (ts : list Thread) (s : GoState)
  : option (Thread * GoState) :=
  match ts with
  | [] => None
  | t :: ts' =>
      match step cfg t s with
      | Next s' => Some (t, s')
      | _ => first_enabled cfg ts' s
      end
  end.

Fixpoint run (cfg : Scan) (fuel : nat) (s : GoState) : list Thread * GoState :=
  match fuel with
  | O => ([], s)
  | S f =>
      match first_enabled cfg (all_threads s) s with
      | None => ([], s)
      | Some (t, s') => let (ts, s'') := run cfg f s' in (t :: ts, s'')
      end
  end.

(** Bound on the number of steps left. *)
Definition main_rank (m : MainPC) : nat :=
  match m with
  | MLoop _ => 6
  | MAcquire _ _ => 5
  | MGo _ _ => 4
  | MWait => 2
  | MClose => 1
  | MRecvDone => 0
  | MJoined => 0
  end.

Definition main_index (m : MainPC) : option nat :=
  match m with
  | MLoop i => Some i
  | MAcquire i _ => Some i
  | MGo i _ => Some i
  | _ => None
  end.

Definition worker_rank (w : Worker) : nat :=
  match pc w with
  | WScan => 5
  | WSend _ => 4
  | WRelease => 2
  | WDone => 1
  | WExit => 0
  end.

Definition collector_rank (c : CollectorPC) : nat :=
  match c with
  | CRecv => 2
  | CProc _ => 3
  | CSendDone => 1
  | CExit => 0
  end.

Definition steps_left (cfg : Scan) (s : GoState) : nat :=
  (match main_index (main_pc s) with
   | Some i => 8 * (length (ports cfg) - i)
   | None => 0
   end
   + main_rank (main_pc s)
   + list_sum (map worker_rank (workers s))
   + collector_rank (collector s))%nat.

(** The goroutines that hold a slot of the semaphore: launched, and not yet
    past their deferred [<-sem]. *)
Definition holds_ticket (w : Worker) : bool :=
  match pc w with
  | WScan | WSend _ | WRelease => true
  | WDone | WExit => false
  end.

(** The goroutines inside [scanPort]. *)
Definition probing (w : Worker) : bool :=
  match pc w with
  | WScan => true
  | _ => false
  end.

Definition exited (w : Worker) : bool :=
  match pc w with
  | WExit => true
  | _ => false
  end.

Definition in_flight (s : GoState) : nat :=
  length (filter holds_ticket (workers s)).

(* ================================================================== *)
(** * Finalisation: [sort.Slice] by port *)

(** [func(i, j int) bool { return results[i].Port < results[j].Port }] *)
Definition less (a b : PortResult) : bool := Port a <? Port b.

(** What [sort.Slice] promises: the same elements, none less than an
    earlier one.  The order of equal elements is not specified. *)
Definition sorted_by_less (before after : list PortResult) : Prop :=
  Permutation before after
  /\ StronglySorted (fun a b => less b a = false) after.

(** One sort meeting the promise, for running the model. *)
Fixpoint insert_by_port (r : PortResult) (l : list PortResult)
  : list PortResult :=
  match l with
  | [] => [r]
  | h :: t => if less r h then r :: l else h :: insert_by_port r t
  end.

Definition sort_Slice (l : list PortResult) : list PortResult :=
  fold_right insert_by_port [] l.

(** [if len(ports) == 0 { for i := 1; i <= 1024; i++ {...} }] *)
Definition default_ports (ports : list Z) : list Z :=
  match ports with
  | [] => map Z.of_nat (seq 1 1024)
  | _ => ports
  end.

(** [timeoutDuration := time.Duration(timeout) * time.Millisecond] *)
Definition timeoutDuration (timeout : Z) : Duration :=
  wrap_int (timeout * Millisecond).

(** The scan [main] sets up: goroutine [i] probes its port on the network
    it meets, [world i], with [scanPort(resolvedIP, p, timeoutDuration)]. *)
Definition scan_cfg (world : nat -> Network) (host : string)
    (timeout : Duration) (nthreads : nat) (ps : list Z) : Scan :=
  {| threads := nthreads; ports := ps;
     probe := fun i p => scanPort (world i) host p timeout |}.

(** The scan of [main] for a port specification under the scheduling policy
    of [run]: the sorted [results] and the count of scanned ports.  [None]
    when the specification is rejected or [fuel] runs out. *)
Definition main_scan (fuel : nat) (world : nat -> Network) (host : string)
    (portRange : string) (nthreads : nat) (timeout_ms : Z)
  : option (list PortResult * nat) :=
  match parsePortRange fuel portRange with
  | Some (parsed, None) =>
      let ps := default_ports parsed in
      let cfg := scan_cfg world host (timeoutDuration timeout_ms) nthreads ps in
      let (_, s) := run cfg fuel init in
      match main_pc s with
      | MJoined => Some (sort_Slice (results s), length ps)
      | _ => None
      end
  | _ => None
  end.

(* ================================================================== *)
(** * Notions used to state the properties *)

(** [strings.Join] for a one-byte separator: how a specification is
    written from its tokens. *)
Fixpoint Join (ts : list string) (sep : ascii) : string :=
  match ts with
  | [] => EmptyString
  | [t] => t
  | t :: ts' => t ++ String sep (Join ts' sep)
  end.

(** The integers from [a] to [b], both included. *)
Definition Zrange (a b : Z) : list Z :=
  map (fun k => a + Z.of_nat k) (seq 0 (Z.to_nat (b - a + 1))).

(** A string that is one white-space rune. *)
Definition space_rune (sp : string) : Prop :=
  sp <> EmptyString /\ space_width sp = String.length sp.

(** A string of white-space runes only. *)
Inductive white : string -> Prop :=
| white_nil : white EmptyString
| white_cons : forall sp ws, space_rune sp -> white ws -> white (sp ++ ws).

(** A byte that neither starts nor ends a white-space rune: an ASCII byte
    other than the six white-space ones. *)
Definition plain (c : ascii) : bool :=
  negb (ascii_space (N_of_ascii c)) && (N_of_ascii c <? 0x80)%N.

(** A continuation byte of UTF-8. *)
Definition is_cont (b : N) : bool := ((0x80 <=? b) && (b <=? 0xBF))%N.

Definition is_digit (c : ascii) : bool :=
  ((48 <=? N_of_ascii c) && (N_of_ascii c <=? 57))%N.

Fixpoint all_digits (s : string) : bool :=
  match s with
  | EmptyString => true
  | String c s' => is_digit c && all_digits s'
  end.

Definition first_plain (s : string) : Prop :=
  match s with
  | EmptyString => False
  | String c _ => plain c = true
  end.

(** The error taxonomy of the specification. *)
Inductive ErrorKind : Type :=
| InvalidRangeFormat
| InvalidPortNumber
| InvalidRangeOrder.

Definition kind_of (e : PortError) : ErrorKind :=
  match e with
  | ErrRangeFormat _ => InvalidRangeFormat
  | ErrStartPort _ | ErrEndPort _ | ErrPort _ => InvalidPortNumber
  | ErrRangeOrder _ _ => InvalidRangeOrder
  end.

(** A token of a port specification: a single port or an inclusive range. *)
Inductive Token : Type :=
| Single (p : Z)
| Range (a b : Z).

Definition token_text (t : Token) : string :=
  match t with
  | Single p => format_d p
  | Range a b => format_d a ++ String "-" (format_d b)
  end.

Definition token_ports (t : Token) : list Z :=
  match t with
  | Single p => [p]
  | Range a b => Zrange a b
  end.

(** Ports are not negative and fit an [int]; a range is in order and ends
    below the largest [int]. *)
Definition valid_token (t : Token) : Prop :=
  match t with
  | Single p => 0 <= p <= max_int
  | Range a b => 0 <= a <= b /\ b < max_int
  end.

(** Iterations of the range loop a token needs, the last test included. *)
Definition token_fuel (t : Token) : nat :=
  match t with
  | Single _ => 0
  | Range a b => Z.to_nat (b - a + 2)
  end.

Definition spec_text (ts : list Token) : string :=
  Join (map token_text ts) ",".

(** The tokens the resolver interprets: the comma-separated parts of the
    specification, white space stripped. *)
Definition tokens_of (s : string) : list string :=
  map TrimSpace (Split s ",").

(** A stripped token resolves to the ports it contributes. *)
Inductive resolves : string -> list Z -> Prop :=
| res_single : forall t p,
    Contains t "-" = false -> Atoi t = Some p -> resolves t [p]
| res_range : forall t p0 p1 a b,
    Contains t "-" = true -> Split t "-" = [p0; p1] ->
    Atoi p0 = Some a -> Atoi p1 = Some b -> a <= b -> b < max_int ->
    resolves t (Zrange a b).

(** The ways a stripped token offends, with the error that reports it. *)
Inductive offends : string -> PortError -> Prop :=
| off_format : forall t,
    Contains t "-" = true -> length (Split t "-") <> 2%nat ->
    offends t (ErrRangeFormat t)
| off_start : forall t p0 p1,
    Contains t "-" = true -> Split t "-" = [p0; p1] -> Atoi p0 = None ->
    offends t (ErrStartPort p0)
| off_end : forall t p0 p1 a,
    Contains t "-" = true -> Split t "-" = [p0; p1] ->
    Atoi p0 = Some a -> Atoi p1 = None ->
    offends t (ErrEndPort p1)
| off_order : forall t p0 p1 a b,
    Contains t "-" = true -> Split t "-" = [p0; p1] ->
    Atoi p0 = Some a -> Atoi p1 = Some b -> a > b ->
    offends t (ErrRangeOrder a b)
| off_single : forall t,
    Contains t "-" = false -> Atoi t = None ->
    offends t (ErrPort t).

(** Resolution of [s] stops at its first token that does not resolve, and
    that token offends as [e] reports. *)
Definition fails_with (s : string) (e : PortError) : Prop :=
  s <> EmptyString
  /\ exists pre t post,
       tokens_of s = (pre ++ t :: post)%list
       /\ Forall (fun t' => exists l, resolves t' l) pre
       /\ offends t e.

(** The three conditions of the specification, on a stripped token. *)
Definition range_format_defect (t : string) : Prop :=
  Contains t "-" = true /\ length (Split t "-") <> 2%nat.

Definition port_number_defect (t : string) : Prop :=
  (Contains t "-" = false /\ Atoi t = None)
  \/ (Contains t "-" = true
      /\ exists p0 p1, Split t "-" = [p0; p1]
                       /\ (Atoi p0 = None \/ Atoi p1 = None)).

Definition range_order_defect (t : string) : Prop :=
  Contains t "-" = true
  /\ exists p0 p1 a b, Split t "-" = [p0; p1]
                       /\ Atoi p0 = Some a /\ Atoi p1 = Some b /\ a > b.

(** A token with white space around it. *)
Record Padded : Type := mkPadded {
  lead : string;
  tok : string;
  trail : string
}.

Definition padded_text (p : Padded) : string := lead p ++ tok p ++ trail p.

Definition well_padded (p : Padded) : Prop :=
  white (lead p) /\ white (trail p) /\ Contains (tok p) "," = false.

(** Number of elements of a list that satisfy a test. *)
Definition countb {A : Type} (f : A -> bool) (l : list A) : nat :=
  length (filter f l).

Definition b2n (b : bool) : nat := if b then 1%nat else 0%nat.

Definition live (w : Worker) : bool := negb (exited w).

(** The goroutine has handed its result over. *)
Definition has_sent (w : Worker) : bool :=
  match pc w with
  | WRelease | WDone | WExit => true
  | WScan | WSend _ => false
  end.

Definition sent_at (ws : list Worker) (j : nat) : bool :=
  match nth_error ws j with
  | Some w => has_sent w
  | None => false
  end.

(** Contribution of main to the counter of [wg] and to the queue of [sem]:
    main has added to the one, or to both, for a goroutine it has not
    launched yet. *)
Definition main_wg (m : MainPC) : nat :=
  match m with
  | MAcquire _ _ | MGo _ _ => 1
  | _ => 0
  end.

Definition main_sem (m : MainPC) : nat :=
  match m with
  | MGo _ _ => 1
  | _ => 0
  end.

(** The result in the hands of the collector, when it is to be stored. *)
Definition pending (c : CollectorPC) : list PortResult :=
  match c with
  | CProc r => if is_open r then [r] else []
  | _ => []
  end.

(** The results a complete scan hands over: for the [i]-th port, the
    result of the [i]-th probe. *)
Fixpoint probes_from (cfg : Scan) (i : nat) (ps : list Z)
  : list (nat * PortResult) :=
  match ps with
  | [] => []
  | p :: ps' => (i, probe cfg i p) :: probes_from cfg (S i) ps'
  end.

Definition expected (cfg : Scan) : list (nat * PortResult) :=
  probes_from cfg 0 (ports cfg).

(** Invariant of the scan: control. *)
Record Control (cfg : Scan) (s : GoState) : Prop := mkControl {
  ctl_main :
    match main_pc s with
    | MLoop i => i = length (workers s) /\ (i <= length (ports cfg))%nat
    | MAcquire i port | MGo i port =>
        i = length (workers s) /\ nth_error (ports cfg) i = Some port
    | MWait => length (workers s) = length (ports cfg)
    | MClose | MRecvDone | MJoined =>
        length (workers s) = length (ports cfg) /\ wg s = O
    end;
  ctl_wg : wg s = (countb live (workers s) + main_wg (main_pc s))%nat;
  ctl_sem :
    sem s = (countb holds_ticket (workers s) + main_sem (main_pc s))%nat;
  ctl_cap : (sem s <= threads cfg)%nat;
  ctl_closed :
    closed s = match main_pc s with
               | MRecvDone | MJoined => true
               | _ => false
               end;
  ctl_collector :
    match collector s with
    | CSendDone => main_pc s = MRecvDone
    | CExit => main_pc s = MJoined
    | _ => main_pc s <> MJoined
    end
}.

(** Invariant of the scan: data. *)
Record Data (cfg : Scan) (s : GoState) : Prop := mkData {
  dat_args : forall j w, nth_error (workers s) j = Some w ->
             nth_error (ports cfg) j = Some (arg_p w);
  dat_send : forall j w r, nth_error (workers s) j = Some w ->
             pc w = WSend r -> r = probe cfg j (arg_p w);
  dat_accepted : forall j r, In (j, r) (accepted s) ->
             exists p, nth_error (ports cfg) j = Some p /\ r = probe cfg j p;
  dat_once : forall j,
             count_occ Nat.eq_dec (map fst (accepted s)) j
             = b2n (sent_at (workers s) j);
  dat_results :
    filter is_open (map snd (accepted s))
    = (results s ++ pending (collector s))%list
}.

(** What [main] can report for a port specification: the sorted results and
    the count of scanned ports of a complete scan, for any interleaving of
    the goroutines and any outcome of [sort.Slice]. *)
Definition scan_yields (world : nat -> Network) (host : string)
    (portRange : string) (nthreads : nat) (timeout_ms : Z)
    (out : list PortResult) (count : nat) : Prop :=
  exists fuel parsed sched s,
    parsePortRange fuel portRange = Some (parsed, None)
    /\ exec (scan_cfg world host (timeoutDuration timeout_ms) nthreads
               (default_ports parsed)) sched init = Next s
    /\ main_pc s = MJoined
    /\ sorted_by_less (results s) out
    /\ count = length (default_ports parsed).

(** The tokens of ["22, 80"]. *)
Definition padded_22_80 : list Padded :=
  [ mkPadded EmptyString "22" EmptyString; mkPadded " " "80" EmptyString ].

(** Networks and connections of the examples. *)

(** A connection on which nothing arrives before the read deadline. *)
Definition silent_conn : Conn :=
  {| SetReadDeadline := fun _ => false; Read := fun _ => (0, true) |}.

(** Host ["h"]: port 8000 accepts, every other port refuses. *)
Definition net_8000 : Network :=
  fun address _ =>
    if String.eqb address "h:8000" then (Some silent_conn, None)
    else (None, Some (NetError false)).

(** Every port accepts. *)
Definition net_open : Network := fun _ _ => (Some silent_conn, None).

(** Every attempt times out. *)
Definition net_drop : Network := fun _ _ => (None, Some (NetError true)).

(** Scans of the examples. *)
Definition scan_8000 : Scan :=
  scan_cfg (fun _ => net_8000) "h" defaultTimeout 1 [7999; 8000; 8001].

Definition scan_three : Scan :=
  scan_cfg (fun _ => net_open) "h" defaultTimeout 2 [21; 22; 23].

Definition scan_two : Scan :=
  scan_cfg (fun _ => net_open) "h" defaultTimeout 2 [443; 80].

(* ================================================================== *)
(** * Host resolution and liveness: [validateHost], [isHostAlive]

    [net.LookupIP], [net.LookupHost], [net.ParseIP] and the command [ping]
    are answers of the environment.  [IP.To4] and the dotted form of
    [IP.String] are modelled after package [net]; the text of an address
    that is not IPv4 is left to a parameter. *)

(** A [net.IP]: a slice of bytes. *)
Definition IP : Type := list N.

Definition isZeros (p : list N) : bool := forallb (N.eqb 0) p.

(** [IP.To4]: a 4-byte address as it is, the last four bytes of a 16-byte
    IPv4-mapped address, [None] (for [nil]) otherwise. *)
Definition To4 (ip : IP) : option IP :=
  if (length ip =? 4)%nat then Some ip
  else if (length ip =? 16)%nat && isZeros (firstn 10 ip)
          && (nth 10 ip 0 =? 0xff)%N && (nth 11 ip 0 =? 0xff)%N
       then Some (skipn 12 ip)
       else None.

(** The dotted decimal text of a 4-byte address. *)
Definition dotted (p4 : IP) : string :=
  Join (map (fun b => format_d (Z.of_N b)) p4) ".".

(** [IP.String]: dotted when [To4] gives an address; [ip_text] stands for
    the other forms. *)
Definition IP_String (ip_text : IP -> string) (ip : IP) : string :=
  match ip with
  | [] => "<nil>"
  | _ => match To4 ip with
         | Some p4 => dotted p4
         | None => ip_text ip
         end
  end.

(** The two [fmt.Errorf] of [validateHost]; the first holds the text of
    the error of [net.LookupIP]. *)
Inductive HostError : Type :=
| ErrLookup (host : string) (err : string)
| ErrNoAddress (host : string).

(** [for _, ip := range ips { if ipv4 := ip.To4(); ipv4 != nil {...} }] *)
Fixpoint first_To4 (ips : list IP) : option IP :=
  match ips with
  | [] => None
  | ip :: rest =>
      match To4 ip with
      | Some ipv4 => Some ipv4
      | None => first_To4 rest
      end
  end.

(** [validateHost]; [lookupIP host] is the pair [(ips, err)] of
    [net.LookupIP], with the text of a non-nil error. *)
Definition validateHost (lookupIP : string -> list IP * option string)
    (ip_text : IP -> string) (host : string) : string * option HostError :=
  match lookupIP host with
  | (_, Some err) => (EmptyString, Some (ErrLookup host err))
  | (ips, None) =>
      match first_To4 ips with
      | Some ipv4 => (IP_String ip_text ipv4, None)
      | None =>
          match ips with
          | ip :: _ => (IP_String ip_text ip, None)
          | [] => (EmptyString, Some (ErrNoAddress host))
          end
      end
  end.

(** The calls of [isHostAlive], in order. *)
Inductive HostEvent : Type :=
| HDial (address : string) (timeout : Duration)
| HClose
| HPing (host : string).

Inductive LoopOutcome : Type :=
| LoopReturn (b : bool)   (* [return b] inside the loop *)
| LoopPanic               (* [conn.Close()] on a nil connection *)
| LoopEnd.                (* the loop ran to its end *)

(** [for _, port := range []int{80, 443} {...}] of [isHostAlive]. *)
Fixpoint alive_loop (net : Network) (host : string) (timeout : Duration)
    (ps : list Z) : LoopOutcome * list HostEvent :=
  match ps with
  | [] => (LoopEnd, [])
  | port :: rest =>
      let dial := HDial (address host port) timeout in
      match net (address host port) timeout with
      | (Some _, None) => (LoopReturn true, [dial; HClose])
      | (None, None) => (LoopPanic, [dial])
      | (_, Some _) =>
          let (o, evs) := alive_loop net host timeout rest in
          (o, dial :: evs)
      end
  end.

(** [isHostAlive], with the trace of its calls; [ping host] tells whether
    [exec.Command("ping", "-c", "1", "-W", "2", host).Run()] returned no
    error.  [None] stands for a panic. *)
Definition isHostAlive_trace (net : Network) (ping : string -> bool)
    (host : string) (timeout : Duration) : option bool * list HostEvent :=
  match alive_loop net host timeout [80; 443] with
  | (LoopReturn b, evs) => (Some b, evs)
  | (LoopPanic, evs) => (None, evs)
  | (LoopEnd, evs) => (Some (ping host), (evs ++ [HPing host])%list)
  end.

Definition isHostAlive (net : Network) (ping : string -> bool)
    (host : string) (timeout : Duration) : option bool :=
  fst (isHostAlive_trace net ping host timeout).

(** The IPv4 preference of [main] (lines 271 to 283): [lookupHost host] is
    the pair of [net.LookupHost], [parses_To4 addr] tells whether
    [net.ParseIP(addr).To4() != nil]. *)
Fixpoint first_ipv4_text (parses_To4 : string -> bool) (addrs : list string)
  : option string :=
  match addrs with
  | [] => None
  | addr :: rest =>
      if parses_To4 addr then Some addr else first_ipv4_text parses_To4 rest
  end.

Definition prefer_ipv4 (useIPv4 : bool)
    (lookupHost : string -> list string * option string)
    (parses_To4 : string -> bool) (host resolvedIP : string) : string :=
  if useIPv4 && negb (Contains resolvedIP ".") then
    match lookupHost host with
    | (addrs, None) =>
        match first_ipv4_text parses_To4 addrs with
        | Some addr => addr
        | None => resolvedIP
        end
    | (_, Some _) => resolvedIP
    end
  else resolvedIP.

(** The networks a [Dial] can give: a connection exactly when no error. *)
Definition dial_contract (net : Network) : Prop :=
  forall a t, match net a t with
              | (Some _, None) | (None, Some _) => True
              | _ => False
              end.

(** A dial that succeeds. *)
Definition connects (net : Network) (a : string) (t : Duration) : bool :=
  match net a t with
  | (_, None) => true
  | (_, Some _) => false
  end.




(** The answers of the network and of [ping] in the examples of
    [isHostAlive] and [validateHost]. *)
Definition net_443 : Network :=
  fun a _ =>
    if String.eqb a "h:443" then (Some silent_conn, None)
    else (None, Some (NetError true)).

Definition lookup_v6_v4 : string -> list IP * option string :=
  fun _ =>
    ([ [0x20; 0x01; 0x0d; 0xb8; 0; 0; 0; 0; 0; 0; 0; 0; 0; 0; 0; 1];
       [192; 168; 1; 7] ]%N, None).

Definition lookup_none : string -> list IP * option string :=
  fun _ => ([], None).

(* ================================================================== *)
(** * States of the scan used to state its properties *)

(** Main at its first [sem <- struct{}{}], no goroutine launched. *)
Definition first_acquire (port : Z) : GoState :=
  {| main_pc := MAcquire 0 port; workers := []; collector := CRecv;
     sem := 0; wg := 1; closed := false; results := []; accepted := [] |}.

(** Main has launched the goroutines of the first [k] ports and no other
    goroutine has moved. *)
Definition launched (cfg : Scan) (k : nat) : GoState :=
  {| main_pc := MLoop k;
     workers := map (fun p => {| arg_p := p; pc := WScan |})
                  (firstn k (ports cfg));
     collector := CRecv; sem := k; wg := k; closed := false;
     results := []; accepted := [] |}.

(** [timeoutDuration*2], the timeout [main] gives [isHostAlive]. *)
Definition alive_timeout (timeout : Z) : Duration :=
  wrap_int (timeoutDuration timeout * 2).

(** A scan with a semaphore of capacity zero. *)
Definition scan_none : Scan :=
  scan_cfg (fun _ => net_open) "h" defaultTimeout 0 [443; 80].

(* ================================================================== *)
(** * Facts about strings *)

Lemma sapp_nil_r : forall s : string, s ++ EmptyString = s.
Proof. induction s; simpl; congruence. Qed.

Lemma sapp_assoc : forall a b c : string, (a ++ b) ++ c = a ++ (b ++ c).
Proof. induction a; intros; simpl; congruence. Qed.

Lemma string_rev_app :
  forall a b, string_rev (a ++ b) = string_rev b ++ string_rev a.
Proof.
  induction a; intros b; simpl.
  - now rewrite sapp_nil_r.
  - now rewrite IHa, sapp_assoc.
Qed.

Lemma string_rev_involutive : forall s, string_rev (string_rev s) = s.
Proof.
  induction s; simpl; auto.
  rewrite string_rev_app, IHs. reflexivity.
Qed.

Lemma Contains_app :
  forall a b sep, Contains (a ++ b) sep = Contains a sep || Contains b sep.
Proof.
  induction a; intros; simpl; auto.
  now rewrite IHa, orb_assoc.
Qed.

Lemma Split_not_nil : forall s sep, Split s sep <> [].
Proof.
  destruct s; simpl; intros sep; try discriminate.
  destruct (Ascii.eqb a sep); try discriminate.
  destruct (Split s sep); discriminate.
Qed.

Lemma Split_plain :
  forall s sep, Contains s sep = false -> Split s sep = [s].
Proof.
  induction s; simpl; intros sep H; auto.
  apply orb_false_iff in H. destruct H as [H1 H2].
  rewrite H1, (IHs _ H2). reflexivity.
Qed.

Lemma Split_app_sep :
  forall a b sep, Contains a sep = false ->
  Split (a ++ String sep b) sep = a :: Split b sep.
Proof.
  induction a; simpl; intros b sep H.
  - now rewrite Ascii.eqb_refl.
  - apply orb_false_iff in H. destruct H as [H1 H2].
    rewrite H1, (IHa _ _ H2). reflexivity.
Qed.

Lemma Split_Join :
  forall ts sep, ts <> [] ->
  Forall (fun t => Contains t sep = false) ts ->
  Split (Join ts sep) sep = ts.
Proof.
  induction ts as [|t ts IH]; intros sep Hne Hall; [congruence|].
  inversion Hall as [|? ? Ht Hts]; subst.
  destruct ts as [|t' ts'].
  - simpl. now apply Split_plain.
  - change (Join (t :: t' :: ts') sep)
      with (t ++ String sep (Join (t' :: ts') sep)).
    rewrite Split_app_sep by assumption.
    rewrite IH; auto. discriminate.
Qed.

(* ================================================================== *)
(** * Facts about [TrimSpace] *)

Ltac bool_N :=
  unfold plain, is_cont, space2, space3, ascii_space in *;
  repeat rewrite ?andb_true_iff, ?orb_true_iff, ?andb_false_iff,
    ?orb_false_iff, ?negb_true_iff, ?negb_false_iff, ?N.eqb_eq, ?N.eqb_neq,
    ?N.leb_le, ?N.leb_gt, ?N.ltb_lt, ?N.ltb_ge in *;
  lia.

Lemma space2_cont : forall b0 b1, space2 b0 b1 = true -> is_cont b1 = true.
Proof. intros. bool_N. Qed.

Lemma space3_cont :
  forall b0 b1 b2, space3 b0 b1 b2 = true ->
  is_cont b1 = true /\ is_cont b2 = true.
Proof. intros. split; bool_N. Qed.

Lemma space_width_le : forall s, (space_width s <= String.length s)%nat.
Proof.
  intros [|c0 [|c1 [|c2 s]]]; simpl; auto;
    repeat match goal with |- context [if ?b then _ else _] => destruct b end;
    simpl; lia.
Qed.

(** A recognised rune is recognised whatever follows it. *)
Lemma space_width_app :
  forall s r k, space_width s = S k -> space_width (s ++ r) = S k.
Proof.
  intros [|c0 [|c1 [|c2 s]]] r k; simpl; try discriminate;
    repeat match goal with |- context [if ?b then _ else _] => destruct b end;
    try discriminate; auto.
Qed.

Lemma space_width_last_app :
  forall s r k, space_width_last s = S k -> space_width_last (s ++ r) = S k.
Proof.
  intros [|c0 [|c1 [|c2 s]]] r k; simpl; try discriminate;
    repeat match goal with |- context [if ?b then _ else _] => destruct b end;
    try discriminate; auto.
Qed.

Lemma trim_by_skip :
  forall w a b, trim_by w (String.length a) (a ++ b) = trim_by w 0 b.
Proof.
  induction a; intros b; simpl; auto.
Qed.

Lemma trim_by_rune :
  forall w a b, a <> EmptyString -> w (a ++ b) = String.length a ->
  trim_by w 0 (a ++ b) = trim_by w 0 b.
Proof.
  intros w [|c a] b Hne Hw; [congruence|].
  simpl in *. rewrite Hw. apply trim_by_skip.
Qed.

Lemma trim_by_none : forall w s, w s = O -> trim_by w 0 s = s.
Proof. intros w [|c s] H; simpl; auto. now rewrite H. Qed.

Lemma TrimLeftSpace_white :
  forall l s, white l -> TrimLeftSpace (l ++ s) = TrimLeftSpace s.
Proof.
  intros l s H. induction H as [|sp ws [Hne Hw] _ IH]; auto.
  rewrite sapp_assoc. unfold TrimLeftSpace in *.
  rewrite trim_by_rune; auto.
  destruct (String.length sp) eqn:E.
  - destruct sp; simpl in E; congruence.
  - rewrite <- E. rewrite <- E in Hw. rewrite E in *. now apply space_width_app.
Qed.

Lemma space_rune_rev :
  forall sp, space_rune sp ->
  space_width_last (string_rev sp) = String.length sp.
Proof.
  intros [|c0 [|c1 [|c2 [|c3 s]]]] [Hne Hw]; simpl in *; try congruence.
  - destruct (ascii_space (N_of_ascii c0)) eqn:E0; try discriminate.
    destruct (space2 (N_of_ascii c0) (N_of_ascii c1)) eqn:E1;
      try discriminate.
    assert (E2 : ascii_space (N_of_ascii c1) = false) by bool_N.
    now rewrite E2.
  - destruct (ascii_space (N_of_ascii c0)) eqn:E0; try discriminate.
    destruct (space2 (N_of_ascii c0) (N_of_ascii c1)) eqn:E1;
      try discriminate.
    destruct (space3 (N_of_ascii c0) (N_of_ascii c1) (N_of_ascii c2)) eqn:E2;
      try discriminate.
    assert (E3 : ascii_space (N_of_ascii c2) = false) by bool_N.
    assert (E4 : space2 (N_of_ascii c1) (N_of_ascii c2) = false) by bool_N.
    now rewrite E3, E4.
  - exfalso.
    repeat match type of Hw with
           | context [if ?b then _ else _] => destruct b
           end; discriminate.
Qed.

Lemma space_rune_length_pos :
  forall sp, space_rune sp -> exists k, String.length sp = S k.
Proof. intros [|c s] [Hne _]; [congruence|]. simpl. eauto. Qed.

Lemma sapp_length :
  forall a b, String.length (a ++ b) = (String.length a + String.length b)%nat.
Proof. induction a; intros; simpl; auto. Qed.

Lemma string_rev_length :
  forall s, String.length (string_rev s) = String.length s.
Proof.
  induction s; simpl; auto.
  rewrite sapp_length, IHs. simpl. lia.
Qed.

Lemma string_rev_nil : forall s, string_rev s = EmptyString -> s = EmptyString.
Proof.
  intros s H. apply (f_equal String.length) in H.
  rewrite string_rev_length in H. destruct s; simpl in *; congruence.
Qed.

Lemma trim_last_white :
  forall r, white r -> forall x,
  trim_by space_width_last 0 (string_rev r ++ x)
  = trim_by space_width_last 0 x.
Proof.
  intros r H. induction H as [|sp ws Hsp _ IH]; intros x; auto.
  rewrite string_rev_app, sapp_assoc, IH.
  apply trim_by_rune.
  - intros E. apply string_rev_nil in E. destruct Hsp. congruence.
  - rewrite string_rev_length.
    destruct (space_rune_length_pos _ Hsp) as [k Hk].
    rewrite Hk. apply space_width_last_app.
    rewrite <- Hk. now apply space_rune_rev.
Qed.

Lemma TrimRightSpace_white :
  forall s r, white r -> TrimRightSpace (s ++ r) = TrimRightSpace s.
Proof.
  intros s r H. unfold TrimRightSpace.
  now rewrite string_rev_app, trim_last_white.
Qed.

(** The first byte of a run of white space is not a continuation byte. *)
Lemma white_first :
  forall r, white r ->
  match r with
  | EmptyString => True
  | String c _ => is_cont (N_of_ascii c) = false
  end.
Proof.
  intros r H. induction H as [|sp ws [Hne Hw] _ IH]; simpl; auto.
  destruct sp as [|c0 sp]; [congruence|]. simpl.
  destruct sp as [|c1 [|c2 sp]]; simpl in Hw;
    repeat match type of Hw with
           | context [if ?b then _ else _] => destruct b eqn:?
           end; try discriminate; bool_N.
Qed.

(** A string that does not start with white space still does not when
    white space is appended. *)
Lemma space_width_app_white :
  forall s r, s <> EmptyString -> white r -> space_width s = O ->
  space_width (s ++ r) = O.
Proof.
  intros s r Hne Hr Hs. apply white_first in Hr.
  destruct s as [|c0 [|c1 [|c2 s]]]; [congruence| | |]; simpl in *.
  - destruct (ascii_space (N_of_ascii c0)) eqn:E0; try discriminate.
    destruct r as [|d0 r]; auto.
    destruct (space2 (N_of_ascii c0) (N_of_ascii d0)) eqn:E1.
    { apply space2_cont in E1. congruence. }
    destruct r as [|d1 r]; auto.
    destruct (space3 (N_of_ascii c0) (N_of_ascii d0) (N_of_ascii d1)) eqn:E2;
      auto.
    apply space3_cont in E2. destruct E2. congruence.
  - destruct (ascii_space (N_of_ascii c0)) eqn:E0; try discriminate.
    destruct (space2 (N_of_ascii c0) (N_of_ascii c1)) eqn:E1;
      try discriminate.
    destruct r as [|d0 r]; auto.
    destruct (space3 (N_of_ascii c0) (N_of_ascii c1) (N_of_ascii d0)) eqn:E2;
      auto.
    apply space3_cont in E2. destruct E2. congruence.
  - exact Hs.
Qed.

Lemma trim_by_0 :
  forall w c s,
  trim_by w 0 (String c s)
  = match w (String c s) with
    | O => String c s
    | S k => trim_by w k s
    end.
Proof. reflexivity. Qed.

Lemma trim_left_app_white :
  forall r, white r -> forall t k,
  trim_by space_width k t <> EmptyString ->
  trim_by space_width k (t ++ r) = trim_by space_width k t ++ r.
Proof.
  intros r Hr. induction t as [|c t IH]; intros k H; [simpl in H; congruence|].
  destruct k as [|k].
  - change (String c t ++ r) with (String c (t ++ r)).
    rewrite !trim_by_0 in *.
    change (String c (t ++ r)) with (String c t ++ r).
    destruct (space_width (String c t)) eqn:E.
    + rewrite space_width_app_white by (auto; discriminate). reflexivity.
    + rewrite (space_width_app _ r _ E). now apply IH.
  - apply IH. exact H.
Qed.

Lemma trim_left_all_white :
  forall r t k, (k <= String.length t)%nat ->
  trim_by space_width k t = EmptyString ->
  trim_by space_width k (t ++ r) = trim_by space_width 0 r.
Proof.
  intros r. induction t as [|c t IH]; intros k Hk H.
  - simpl in Hk. assert (k = O) by lia. subst. reflexivity.
  - destruct k as [|k].
    + change (String c t ++ r) with (String c (t ++ r)).
      rewrite trim_by_0 in *.
      change (String c (t ++ r)) with (String c t ++ r).
      destruct (space_width (String c t)) eqn:E; [discriminate|].
      rewrite (space_width_app _ r _ E). apply IH; auto.
      pose proof (space_width_le (String c t)) as Hle.
      rewrite E in Hle. simpl in Hle. lia.
    + apply IH; [simpl in Hk; lia | exact H].
Qed.

Lemma TrimLeftSpace_only_white :
  forall r, white r -> TrimLeftSpace r = EmptyString.
Proof.
  intros r H. rewrite <- (sapp_nil_r r). now rewrite TrimLeftSpace_white.
Qed.

(** White space around a token does not change what [TrimSpace] returns. *)
Lemma TrimSpace_padded :
  forall l t r, white l -> white r ->
  TrimSpace (l ++ t ++ r) = TrimSpace t.
Proof.
  intros l t r Hl Hr. unfold TrimSpace.
  rewrite TrimLeftSpace_white by assumption.
  destruct (string_dec (TrimLeftSpace t) EmptyString) as [E|E].
  - unfold TrimLeftSpace in *.
    rewrite trim_left_all_white by (auto; lia).
    rewrite E. fold (TrimLeftSpace r).
    now rewrite TrimLeftSpace_only_white.
  - unfold TrimLeftSpace in *.
    rewrite trim_left_app_white by assumption.
    now apply TrimRightSpace_white.
Qed.

Lemma plain_space_width :
  forall c s, plain c = true -> space_width (String c s) = O.
Proof.
  intros c s H. simpl.
  assert (E0 : ascii_space (N_of_ascii c) = false) by bool_N.
  rewrite E0. destruct s as [|c1 s]; auto.
  assert (E1 : space2 (N_of_ascii c) (N_of_ascii c1) = false) by bool_N.
  rewrite E1. destruct s as [|c2 s]; auto.
  assert (E2 : space3 (N_of_ascii c) (N_of_ascii c1) (N_of_ascii c2) = false)
    by bool_N.
  now rewrite E2.
Qed.

Lemma plain_space_width_last :
  forall c s, plain c = true -> space_width_last (String c s) = O.
Proof.
  intros c s H. simpl.
  assert (E0 : ascii_space (N_of_ascii c) = false) by bool_N.
  rewrite E0. destruct s as [|c1 s]; auto.
  assert (E1 : space2 (N_of_ascii c1) (N_of_ascii c) = false) by bool_N.
  rewrite E1. destruct s as [|c2 s]; auto.
  assert (E2 : space3 (N_of_ascii c2) (N_of_ascii c1) (N_of_ascii c) = false)
    by bool_N.
  now rewrite E2.
Qed.

(** A string whose first and last bytes are plain is left as it is. *)
Lemma TrimSpace_plain :
  forall s, space_width s = O -> space_width_last (string_rev s) = O ->
  TrimSpace s = s.
Proof.
  intros s H1 H2. unfold TrimSpace, TrimLeftSpace, TrimRightSpace.
  rewrite (trim_by_none _ s H1), (trim_by_none _ _ H2).
  apply string_rev_involutive.
Qed.

(* ================================================================== *)
(** * Facts about [Atoi] and [%d] *)

Lemma is_digit_plain : forall c, is_digit c = true -> plain c = true.
Proof. intros c H. unfold is_digit in H. bool_N. Qed.

Lemma is_digit_neq :
  forall c sep, is_digit c = true -> is_digit sep = false ->
  Ascii.eqb c sep = false.
Proof.
  intros c sep H1 H2. apply Ascii.eqb_neq. intros E. subst. congruence.
Qed.

Lemma all_digits_Contains :
  forall s sep, all_digits s = true -> is_digit sep = false ->
  Contains s sep = false.
Proof.
  induction s; simpl; intros sep H Hs; auto.
  apply andb_true_iff in H. destruct H as [H1 H2].
  rewrite (is_digit_neq _ _ H1 Hs). simpl. auto.
Qed.

Lemma all_digits_app :
  forall a b, all_digits (a ++ b) = all_digits a && all_digits b.
Proof.
  induction a; intros b; simpl; auto.
  now rewrite IHa, andb_assoc.
Qed.

Lemma all_digits_rev : forall s, all_digits (string_rev s) = all_digits s.
Proof.
  induction s; simpl; auto.
  rewrite all_digits_app, IHs. simpl.
  rewrite andb_true_r. apply andb_comm.
Qed.

Lemma all_digits_first_plain :
  forall s, all_digits s = true -> s <> EmptyString -> first_plain s.
Proof.
  intros [|c s] H Hne; [congruence|]. simpl in *.
  apply andb_true_iff in H. destruct H. now apply is_digit_plain.
Qed.

Lemma first_plain_app : forall a b, first_plain a -> first_plain (a ++ b).
Proof. intros [|c a] b H; simpl in *; auto. contradiction. Qed.

Lemma TrimSpace_first_plain :
  forall s, first_plain s -> first_plain (string_rev s) -> TrimSpace s = s.
Proof.
  intros s H1 H2. apply TrimSpace_plain.
  - destruct s; simpl in H1; [contradiction|]. now apply plain_space_width.
  - destruct (string_rev s); simpl in H2; [contradiction|].
    now apply plain_space_width_last.
Qed.

Lemma digit_val_char :
  forall d, 0 <= d <= 9 -> digit_val (digit_char d) = Some d.
Proof.
  intros d Hd. unfold digit_val, digit_char.
  rewrite N_ascii_embedding by lia.
  replace ((48 <=? 48 + Z.to_N d)%N && (48 + Z.to_N d <=? 57)%N) with true.
  - f_equal. lia.
  - symmetry. apply andb_true_iff. split; apply N.leb_le; lia.
Qed.

Lemma is_digit_char : forall d, 0 <= d <= 9 -> is_digit (digit_char d) = true.
Proof.
  intros d Hd. unfold is_digit, digit_char.
  rewrite N_ascii_embedding by lia.
  apply andb_true_iff. split; apply N.leb_le; lia.
Qed.

Lemma atoi_digits_app :
  forall a b k,
  atoi_digits (a ++ b) k
  = match atoi_digits a k with
    | Some k' => atoi_digits b k'
    | None => None
    end.
Proof.
  induction a; intros b k; simpl; auto.
  destruct (digit_val a); auto.
Qed.

(** The digits [utoa] writes, read back by the digit loop of [Atoi]. *)
Lemma utoa_digits :
  forall fuel n acc, (1 <= fuel)%nat -> 0 <= n < 10 ^ Z.of_nat fuel ->
  exists ds m,
    utoa fuel n acc = ds ++ acc /\ ds <> EmptyString /\ all_digits ds = true
    /\ forall k, atoi_digits ds k = Some (k * m + n).
Proof.
  induction fuel as [|f IH]; intros n acc Hf Hn; [lia|].
  simpl utoa.
  assert (Hd : 0 <= n mod 10 <= 9) by (pose proof (Z.mod_pos_bound n 10); lia).
  destruct (n <? 10) eqn:E.
  - apply Z.ltb_lt in E.
    exists (String (digit_char (n mod 10)) EmptyString), 10. repeat split.
    + discriminate.
    + simpl. now rewrite is_digit_char.
    + intros k. simpl. rewrite digit_val_char by assumption.
      rewrite Z.mod_small by lia. reflexivity.
  - apply Z.ltb_ge in E.
    assert (Hq : 1 <= n / 10) by (apply Z.div_le_lower_bound; lia).
    assert (Hq2 : n / 10 < 10 ^ Z.of_nat f).
    { apply Z.div_lt_upper_bound; [lia|].
      replace (Z.of_nat (S f)) with (Z.of_nat f + 1) in Hn by lia.
      rewrite Z.pow_add_r in Hn by lia. lia. }
    assert (Hf' : (1 <= f)%nat).
    { destruct f; [simpl in Hq2; lia | lia]. }
    destruct (IH (n / 10) (String (digit_char (n mod 10)) acc) Hf')
      as (ds & m & H1 & H2 & H3 & H4); [lia|].
    exists (ds ++ String (digit_char (n mod 10)) EmptyString), (m * 10).
    repeat split.
    + rewrite H1, sapp_assoc. reflexivity.
    + destruct ds; [congruence | discriminate].
    + rewrite all_digits_app, H3. simpl. now rewrite is_digit_char.
    + intros k. rewrite atoi_digits_app, H4. simpl.
      rewrite digit_val_char by assumption. f_equal.
      pose proof (Z.div_mod n 10). lia.
Qed.

Lemma digits_bound_enough :
  forall n, 0 <= n -> n < 10 ^ Z.of_nat (digits_bound n).
Proof.
  intros n Hn. unfold digits_bound.
  rewrite Nat2Z.inj_succ, Z2Nat.id by apply Z.log2_nonneg.
  destruct (Z.eq_dec n 0) as [->|Hz].
  - reflexivity.
  - pose proof (Z.log2_spec n ltac:(lia)) as [_ H].
    eapply Z.lt_le_trans; [exact H|].
    apply Z.pow_le_mono_l. pose proof (Z.log2_nonneg n). lia.
Qed.

(** The decimal text of a non-negative number. *)
Lemma format_d_digits :
  forall n, 0 <= n ->
  format_d n <> EmptyString /\ all_digits (format_d n) = true
  /\ atoi_digits (format_d n) 0 = Some n.
Proof.
  intros n Hn. unfold format_d.
  destruct (n <? 0) eqn:E; [apply Z.ltb_lt in E; lia|].
  destruct (utoa_digits (digits_bound n) n EmptyString)
    as (ds & m & H1 & H2 & H3 & H4).
  - unfold digits_bound. lia.
  - split; [assumption | now apply digits_bound_enough].
  - rewrite H1, sapp_nil_r. repeat split; auto.
Qed.

Lemma atoi_digits_nonneg :
  forall s k m, 0 <= k -> atoi_digits s k = Some m -> 0 <= m.
Proof.
  induction s as [|a s IH]; simpl; intros k m Hk H; [congruence|].
  unfold digit_val in H.
  destruct ((48 <=? N_of_ascii a)%N && (N_of_ascii a <=? 57)%N) eqn:E;
    [|discriminate].
  apply andb_true_iff in E. destruct E as [E1 E2].
  apply N.leb_le in E1. eapply IH; [|exact H]. lia.
Qed.

Lemma all_digits_Atoi :
  forall s n, s <> EmptyString -> all_digits s = true ->
  atoi_digits s 0 = Some n ->
  Atoi s = if n <=? max_int then Some n else None.
Proof.
  intros [|c s] n Hne Hd Hv; [congruence|].
  unfold Atoi.
  simpl in Hd. apply andb_true_iff in Hd. destruct Hd as [Hc _].
  rewrite (is_digit_neq c "-" Hc eq_refl), (is_digit_neq c "+" Hc eq_refl).
  cbn [orb]. rewrite Hv.
  assert (Hpos : 0 <= n)
    by (eapply atoi_digits_nonneg; [|exact Hv]; lia).
  replace (min_int <=? n) with true
    by (symmetry; apply Z.leb_le; unfold min_int; lia).
  reflexivity.
Qed.

(** [Atoi] reads back what [%d] prints. *)
Lemma Atoi_format_d :
  forall n, 0 <= n <= max_int -> Atoi (format_d n) = Some n.
Proof.
  intros n Hn. destruct (format_d_digits n) as (H1 & H2 & H3); [lia|].
  rewrite (all_digits_Atoi _ n H1 H2 H3).
  replace (n <=? max_int) with true by (symmetry; apply Z.leb_le; lia).
  reflexivity.
Qed.

(* ================================================================== *)
(** * Facts about the range loop *)

Lemma wrap_int_id : forall z, min_int <= z <= max_int -> wrap_int z = z.
Proof.
  intros z H. unfold wrap_int, min_int, max_int in *.
  rewrite Z.mod_small; lia.
Qed.

Lemma wrap_int_range : forall z, min_int <= wrap_int z <= max_int.
Proof.
  intros z. unfold wrap_int, min_int, max_int.
  pose proof (Z.mod_pos_bound (z - - 2 ^ 63) (2 ^ 64) ltac:(lia)). lia.
Qed.

Lemma Zrange_cons : forall a b, a <= b -> Zrange a b = a :: Zrange (a + 1) b.
Proof.
  intros a b H. unfold Zrange.
  replace (Z.to_nat (b - a + 1)) with (S (Z.to_nat (b - (a + 1) + 1))) by lia.
  cbn [seq map]. f_equal; [lia|].
  rewrite <- seq_shift, map_map. apply map_ext. intros k. lia.
Qed.

Lemma Zrange_empty : forall a b, b < a -> Zrange a b = [].
Proof.
  intros a b H. unfold Zrange.
  replace (Z.to_nat (b - a + 1)) with O by lia. reflexivity.
Qed.

(** With enough fuel the loop appends the ports from [start] to [end_]. *)
Lemma range_loop_spec :
  forall n fuel start end_ ports,
  Z.of_nat n = end_ - start + 1 -> min_int <= start -> end_ < max_int ->
  (n < fuel)%nat ->
  range_loop fuel start end_ ports = Some (ports ++ Zrange start end_)%list.
Proof.
  induction n as [|n IH]; intros fuel start end_ ports Hn Hs He Hf;
    (destruct fuel as [|f]; [lia|]); simpl.
  - replace (start <=? end_) with false by (symmetry; apply Z.leb_gt; lia).
    rewrite Zrange_empty by lia. now rewrite app_nil_r.
  - replace (start <=? end_) with true by (symmetry; apply Z.leb_le; lia).
    rewrite wrap_int_id by lia.
    rewrite IH by lia.
    rewrite (Zrange_cons start end_) by lia.
    now rewrite <- app_assoc.
Qed.

(** A range that ends at the largest [int] never leaves the loop. *)
Lemma range_loop_max_int :
  forall fuel start ports, start <= max_int ->
  range_loop fuel start max_int ports = None.
Proof.
  induction fuel as [|f IH]; intros start ports H; simpl; auto.
  replace (start <=? max_int) with true by (symmetry; apply Z.leb_le; lia).
  apply IH. apply wrap_int_range.
Qed.

Lemma Atoi_range : forall s z, Atoi s = Some z -> min_int <= z <= max_int.
Proof.
  intros s z H. unfold Atoi in H.
  destruct s as [|c rest]; [discriminate|].
  destruct (if (Ascii.eqb c "-" || Ascii.eqb c "+")%bool then rest
            else String c rest); [discriminate|].
  match type of H with
  | match ?x with _ => _ end = _ => destruct x; [|discriminate]
  end.
  match type of H with
  | (if ?b then _ else _) = _ => destruct b eqn:E; [|discriminate]
  end.
  inversion H; subst. apply andb_true_iff in E.
  destruct E as [E1 E2]. apply Z.leb_le in E1. apply Z.leb_le in E2. lia.
Qed.

(* ================================================================== *)
(** * Facts about [parse_tokens] *)

(** The loop only looks at the stripped tokens. *)
Lemma parse_tokens_trimmed :
  forall fuel l1 l2 ports, map TrimSpace l1 = map TrimSpace l2 ->
  parse_tokens fuel l1 ports = parse_tokens fuel l2 ports.
Proof.
  intros fuel. induction l1 as [|x l1 IH]; intros [|y l2] ports H;
    try discriminate; auto.
  simpl in H. inversion H as [[Hx Hl]]. simpl. rewrite Hx.
  destruct (Contains (TrimSpace y) "-").
  - destruct (Split (TrimSpace y) "-") as [|p0 [|p1 [|? ?]]]; auto.
    destruct (Atoi p0); auto. destruct (Atoi p1); auto.
    destruct (z >? z0); auto.
    destruct (range_loop fuel z z0 ports); auto.
  - destruct (Atoi (TrimSpace y)); auto.
Qed.

Lemma format_d_token :
  forall n, 0 <= n ->
  first_plain (format_d n) /\ first_plain (string_rev (format_d n))
  /\ Contains (format_d n) "-" = false /\ Contains (format_d n) "," = false.
Proof.
  intros n Hn. destruct (format_d_digits n Hn) as (H1 & H2 & _).
  repeat split.
  - now apply all_digits_first_plain.
  - apply all_digits_first_plain.
    + now rewrite all_digits_rev.
    + intros E. apply string_rev_nil in E. congruence.
  - now apply all_digits_Contains.
  - now apply all_digits_Contains.
Qed.

Lemma token_text_trim :
  forall t, valid_token t -> TrimSpace (token_text t) = token_text t.
Proof.
  intros [p|a b] H; simpl in *.
  - destruct (format_d_token p) as (H1 & H2 & _); [lia|].
    now apply TrimSpace_first_plain.
  - destruct (format_d_token a) as (H1 & _); [lia|].
    destruct (format_d_token b) as (_ & H2 & _); [lia|].
    apply TrimSpace_first_plain.
    + now apply first_plain_app.
    + rewrite string_rev_app. simpl string_rev. rewrite sapp_assoc.
      now apply first_plain_app.
Qed.

Lemma token_text_no_comma :
  forall t, valid_token t -> Contains (token_text t) "," = false.
Proof.
  intros [p|a b] H; simpl in *.
  - now destruct (format_d_token p) as (_ & _ & _ & H4); [lia|].
  - destruct (format_d_token a) as (_ & _ & _ & Ha); [lia|].
    destruct (format_d_token b) as (_ & _ & _ & Hb); [lia|].
    rewrite Contains_app, Ha. simpl. exact Hb.
Qed.

Lemma token_text_not_empty :
  forall t, valid_token t -> token_text t <> EmptyString.
Proof.
  intros [p|a b] H; simpl in *.
  - now destruct (format_d_digits p) as (H1 & _); [lia|].
  - destruct (format_d a); discriminate.
Qed.

(** The loop on the text of valid tokens. *)
Lemma parse_tokens_valid :
  forall fuel ts ports,
  Forall valid_token ts ->
  Forall (fun t => (token_fuel t <= fuel)%nat) ts ->
  parse_tokens fuel (map token_text ts) ports
  = Some ((ports ++ concat (map token_ports ts))%list, None).
Proof.
  intros fuel. induction ts as [|t ts IH]; intros ports Hv Hf.
  - simpl. now rewrite app_nil_r.
  - inversion Hv as [|? ? Ht Hts]; subst.
    inversion Hf as [|? ? Hft Hfts]; subst.
    cbn [map parse_tokens concat].
    rewrite (token_text_trim t Ht).
    destruct t as [p|a b]; simpl in Ht, Hft; cbn [token_text token_ports].
    + destruct (format_d_token p) as (_ & _ & Hm & _); [lia|].
      rewrite Hm, Atoi_format_d by lia.
      rewrite IH by assumption. now rewrite <- app_assoc.
    + destruct (format_d_token a) as (_ & _ & Ha & _); [lia|].
      destruct (format_d_token b) as (_ & _ & Hb & _); [lia|].
      rewrite Contains_app. simpl Contains. rewrite orb_true_r.
      rewrite Split_app_sep, (Split_plain _ _ Hb) by assumption.
      rewrite !Atoi_format_d by (unfold max_int in *; lia).
      replace (a >? b) with false
        by (symmetry; rewrite Z.gtb_ltb; apply Z.ltb_ge; lia).
      rewrite (range_loop_spec (Z.to_nat (b - a + 1)))
        by (unfold min_int; lia).
      rewrite IH by assumption. now rewrite <- app_assoc.
Qed.

Lemma Join_not_empty :
  forall t ts sep, t <> EmptyString -> Join (t :: ts) sep <> EmptyString.
Proof.
  intros t [|t' ts] sep H; simpl; auto.
  destruct t; [congruence | discriminate].
Qed.

Lemma parsePortRange_not_empty :
  forall fuel s, s <> EmptyString ->
  parsePortRange fuel s = parse_tokens fuel (Split s ",") [].
Proof.
  intros fuel s H. unfold parsePortRange.
  destruct (String.eqb_spec s EmptyString); [congruence | reflexivity].
Qed.

Lemma parsePortRange_valid :
  forall fuel ts,
  Forall valid_token ts ->
  Forall (fun t => (token_fuel t <= fuel)%nat) ts ->
  parsePortRange fuel (spec_text ts)
  = Some (concat (map token_ports ts), None).
Proof.
  intros fuel [|t ts] Hv Hf; [reflexivity|].
  unfold spec_text.
  rewrite parsePortRange_not_empty.
  - rewrite Split_Join.
    + now rewrite parse_tokens_valid.
    + discriminate.
    + apply Forall_map. eapply Forall_impl; [|exact Hv].
      intros; now apply token_text_no_comma.
  - apply Join_not_empty. apply token_text_not_empty.
    now inversion Hv.
Qed.

Lemma parse_tokens_error :
  forall fuel toks ports0 ports e,
  parse_tokens fuel toks ports0 = Some (ports, Some e) ->
  ports = []
  /\ exists pre t post,
       map TrimSpace toks = (pre ++ t :: post)%list
       /\ Forall (fun t' => exists l, resolves t' l) pre
       /\ offends t e.
Proof.
  intros fuel. induction toks as [|r0 toks IH]; intros ports0 ports e H.
  - simpl in H. discriminate.
  - cbn [parse_tokens] in H. cbv zeta in H. cbn [map].
    set (r := TrimSpace r0) in *.
    assert (Hstop : forall e', offends r e' ->
              Some (@nil Z, Some e') = Some (ports, Some e) ->
              ports = []
              /\ exists pre t post,
                   (r :: map TrimSpace toks = pre ++ t :: post)%list
                   /\ Forall (fun t' => exists l, resolves t' l) pre
                   /\ offends t e).
    { intros e' He' E. inversion E; subst. split; auto.
      exists [], r, (map TrimSpace toks). auto. }
    assert (Hgo : forall l ports1, resolves r l ->
              parse_tokens fuel toks ports1 = Some (ports, Some e) ->
              ports = []
              /\ exists pre t post,
                   (r :: map TrimSpace toks = pre ++ t :: post)%list
                   /\ Forall (fun t' => exists l, resolves t' l) pre
                   /\ offends t e).
    { intros l ports1 Hr E.
      destruct (IH _ _ _ E) as (Hp & pre & t & post & H1 & H2 & H3).
      split; auto. exists (r :: pre), t, post. repeat split; auto.
      - simpl. now rewrite H1.
      - constructor; eauto. }
    destruct (Contains r "-") eqn:Ec.
    + destruct (Split r "-") as [|p0 [|p1 [|p2 ps]]] eqn:Es;
        try (apply (Hstop (ErrRangeFormat r)); [|exact H];
             apply off_format; [exact Ec | rewrite Es; simpl; lia]).
      destruct (Atoi p0) as [a|] eqn:Ea;
        [|apply (Hstop (ErrStartPort p0)); [eapply off_start; eauto | exact H]].
      destruct (Atoi p1) as [b|] eqn:Eb;
        [|apply (Hstop (ErrEndPort p1)); [eapply off_end; eauto | exact H]].
      destruct (a >? b) eqn:Eo.
      * apply (Hstop (ErrRangeOrder a b)); [|exact H].
        eapply off_order; eauto. rewrite Z.gtb_ltb in Eo.
        apply Z.ltb_lt in Eo. lia.
      * rewrite Z.gtb_ltb in Eo. apply Z.ltb_ge in Eo.
        destruct (range_loop fuel a b ports0) as [ports1|] eqn:El;
          [|discriminate].
        apply (Hgo (Zrange a b) ports1); [|exact H].
        eapply res_range; eauto.
        pose proof (Atoi_range _ _ Ea) as Ra.
        pose proof (Atoi_range _ _ Eb) as Rb.
        destruct (Z.eq_dec b max_int) as [->|Hb]; [|lia].
        rewrite range_loop_max_int in El by lia. discriminate.
    + destruct (Atoi r) as [p|] eqn:Ea.
      * apply (Hgo [p] (ports0 ++ [p])%list); [|exact H].
        now apply res_single.
      * apply (Hstop (ErrPort r)); [|exact H]. now apply off_single.
Qed.

Lemma parse_tokens_offends :
  forall fuel t rest ports e,
  offends (TrimSpace t) e ->
  parse_tokens fuel (t :: rest) ports = Some ([], Some e).
Proof.
  intros fuel t rest ports e H. cbn [parse_tokens]. cbv zeta.
  inversion H as [? Hc Hl|? p0 p1 Hc Hs Ha|? p0 p1 a Hc Hs Ha Hb
                  |? p0 p1 a b Hc Hs Ha Hb Ho|? Hc Ha]; subst; rewrite Hc.
  - destruct (Split (TrimSpace t) "-") as [|q0 [|q1 [|q2 qs]]]; auto.
    simpl in Hl. congruence.
  - now rewrite Hs, Ha.
  - now rewrite Hs, Ha, Hb.
  - rewrite Hs, Ha, Hb.
    replace (a >? b) with true
      by (symmetry; rewrite Z.gtb_ltb; apply Z.ltb_lt; lia).
    reflexivity.
  - now rewrite Ha.
Qed.

Lemma parse_tokens_resolving :
  forall pre,
  Forall (fun t => exists l, resolves (TrimSpace t) l) pre ->
  exists fuel0, forall fuel, (fuel0 <= fuel)%nat ->
  forall rest ports, exists ports',
    parse_tokens fuel (pre ++ rest) ports = parse_tokens fuel rest ports'.
Proof.
  induction pre as [|t pre IH]; intros H.
  - exists O. intros fuel _ rest ports. exists ports. reflexivity.
  - inversion H as [|? ? [l Hr] Hpre]; subst.
    destruct (IH Hpre) as [f0 Hf0].
    inversion Hr as [? p Hc Ha|? p0 p1 a b Hc Hs Ha Hb Hab Hmax]; subst.
    + exists f0. intros fuel Hf rest ports.
      destruct (Hf0 fuel Hf rest (ports ++ [p])%list) as [ports' E].
      exists ports'. cbn [app parse_tokens]. cbv zeta.
      now rewrite Hc, Ha.
    + exists (Nat.max f0 (Z.to_nat (b - a + 2))). intros fuel Hf rest ports.
      destruct (Hf0 fuel ltac:(lia) rest (ports ++ Zrange a b)%list)
        as [ports' E].
      exists ports'. cbn [app parse_tokens]. cbv zeta.
      rewrite Hc, Hs, Ha, Hb.
      replace (a >? b) with false
        by (symmetry; rewrite Z.gtb_ltb; apply Z.ltb_ge; lia).
      pose proof (Atoi_range _ _ Ha) as Ra.
      rewrite (range_loop_spec (Z.to_nat (b - a + 1))) by lia.
      exact E.
Qed.

Lemma fails_with_parse :
  forall s e, fails_with s e ->
  exists fuel, parsePortRange fuel s = Some ([], Some e).
Proof.
  intros s e (Hne & pre & t & post & Ht & Hpre & Hoff).
  unfold tokens_of in Ht.
  apply map_eq_app in Ht. destruct Ht as (pre' & rest' & Hs & Hp & Hr).
  apply map_eq_cons in Hr. destruct Hr as (t' & post' & Hr & Ht' & Hpost).
  subst pre t rest'.
  destruct (parse_tokens_resolving pre') as [f0 Hf0].
  { apply Forall_forall. intros x Hx.
    rewrite Forall_forall in Hpre. apply Hpre. now apply in_map. }
  exists f0. rewrite parsePortRange_not_empty by assumption.
  rewrite Hs. destruct (Hf0 f0 (le_n _) (t' :: post') []) as [ports' E].
  rewrite E. now apply parse_tokens_offends.
Qed.

Lemma offends_kind :
  forall t e, offends t e ->
  (kind_of e = InvalidRangeFormat <-> range_format_defect t)
  /\ (kind_of e = InvalidPortNumber <-> port_number_defect t)
  /\ (kind_of e = InvalidRangeOrder <-> range_order_defect t).
Proof.
  intros t e H.
  unfold range_format_defect, port_number_defect, range_order_defect.
  inversion H as [? Hc Hl|? p0 p1 Hc Hs Ha|? p0 p1 a Hc Hs Ha Hb
                  |? p0 p1 a b Hc Hs Ha Hb Ho|? Hc Ha]; subst; simpl;
    repeat split; try discriminate; try tauto; eauto 10;
    try (intros [X Y]; try rewrite Hs in Y; simpl in Y; congruence);
    try (intros [[X Y]|[X (q0 & q1 & Y & Z)]]; try congruence;
         try (rewrite Y in Hl; simpl in Hl; congruence);
         rewrite Hs in Y; inversion Y; subst; destruct Z; congruence);
    try (intros (X & q0 & q1 & a' & b' & Y & Z1 & Z2 & Z3); try congruence;
         try (rewrite Y in Hl; simpl in Hl; congruence);
         rewrite Hs in Y; inversion Y; subst; congruence).
Qed.

(* ================================================================== *)
(** * White space around the tokens of a specification *)

Lemma plain_neq :
  forall c sep, plain c = false -> plain sep = true -> Ascii.eqb c sep = false.
Proof.
  intros c sep H1 H2. apply Ascii.eqb_neq. intros E. subst. congruence.
Qed.

Lemma space_rune_no_plain :
  forall sp sep, space_rune sp -> plain sep = true -> Contains sp sep = false.
Proof.
  intros sp sep [Hne Hw] Hsep.
  destruct sp as [|c0 [|c1 [|c2 [|c3 sp]]]]; [congruence| | | |];
    unfold space_width in Hw; simpl String.length in Hw;
    repeat match type of Hw with
           | context [if ?b then _ else _] => destruct b eqn:?
           end; try discriminate; simpl;
    repeat match goal with
           | |- context [Ascii.eqb ?c sep] =>
               rewrite (plain_neq c sep) by (auto; bool_N)
           end; reflexivity.
Qed.

Lemma white_no_plain :
  forall w sep, white w -> plain sep = true -> Contains w sep = false.
Proof.
  intros w sep H Hsep. induction H as [|sp ws Hsp _ IH]; auto.
  rewrite Contains_app, IH, (space_rune_no_plain _ _ Hsp Hsep). reflexivity.
Qed.

Lemma padded_text_no_comma :
  forall p, well_padded p -> Contains (padded_text p) "," = false.
Proof.
  intros p (Hl & Hr & Ht). unfold padded_text.
  rewrite !Contains_app, Ht, !white_no_plain by auto. reflexivity.
Qed.

Lemma padded_text_trim :
  forall p, well_padded p -> TrimSpace (padded_text p) = TrimSpace (tok p).
Proof. intros p (Hl & Hr & _). now apply TrimSpace_padded. Qed.

Lemma Join_padded_not_empty :
  forall ps, Join (map tok ps) "," <> EmptyString ->
  Join (map padded_text ps) "," <> EmptyString.
Proof.
  intros [|p [|q ps]] H; simpl in *; auto.
  - unfold padded_text. destruct (tok p) eqn:E; [congruence|].
    destruct (lead p); simpl; discriminate.
  - destruct (padded_text p); discriminate.
Qed.

Lemma parsePortRange_padded :
  forall fuel ps,
  Forall well_padded ps -> Join (map tok ps) "," <> EmptyString ->
  parsePortRange fuel (Join (map padded_text ps) ",")
  = parsePortRange fuel (Join (map tok ps) ",").
Proof.
  intros fuel ps Hp Hne.
  assert (Hps : ps <> []) by (intros ->; simpl in Hne; congruence).
  rewrite !parsePortRange_not_empty
    by (auto; now apply Join_padded_not_empty).
  rewrite !Split_Join.
  - apply parse_tokens_trimmed. rewrite !map_map.
    apply map_ext_in. intros p Hin. apply padded_text_trim.
    rewrite Forall_forall in Hp. auto.
  - destruct ps; [congruence | discriminate].
  - apply Forall_map. eapply Forall_impl; [|exact Hp].
    intros p (_ & _ & H). exact H.
  - destruct ps; [congruence | discriminate].
  - apply Forall_map. eapply Forall_impl; [|exact Hp].
    intros p H. now apply padded_text_no_comma.
Qed.

Lemma white_space : white " ".
Proof.
  change " " with (" " ++ EmptyString). constructor; [|constructor].
  split; [discriminate | reflexivity].
Qed.

(* ================================================================== *)
(** * Facts about lists *)

Lemma update_length :
  forall (A : Type) (l : list A) i x, length (update l i x) = length l.
Proof. induction l; intros [|i] x; simpl; auto. Qed.

Lemma nth_error_update_same :
  forall (A : Type) (l : list A) i x w,
  nth_error l i = Some w -> nth_error (update l i x) i = Some x.
Proof.
  induction l; intros [|i] x w H; simpl in *; try discriminate; eauto.
Qed.

Lemma nth_error_update_other :
  forall (A : Type) (l : list A) i j x,
  j <> i -> nth_error (update l i x) j = nth_error l j.
Proof.
  induction l; intros [|i] [|j] x H; simpl; auto; try congruence.
Qed.

Lemma countb_app :
  forall (A : Type) (f : A -> bool) l1 l2,
  countb f (l1 ++ l2) = (countb f l1 + countb f l2)%nat.
Proof. intros. unfold countb. now rewrite filter_app, length_app. Qed.

Lemma countb_cons :
  forall (A : Type) (f : A -> bool) x l,
  countb f (x :: l) = (b2n (f x) + countb f l)%nat.
Proof. intros. unfold countb. simpl. destruct (f x); reflexivity. Qed.

Lemma countb_single :
  forall (A : Type) (f : A -> bool) x, countb f [x] = b2n (f x).
Proof. intros. unfold countb. simpl. destruct (f x); reflexivity. Qed.

Lemma countb_update :
  forall (A : Type) (f : A -> bool) l i w x,
  nth_error l i = Some w ->
  (countb f (update l i x) + b2n (f w) = countb f l + b2n (f x))%nat.
Proof.
  induction l as [|a l IH]; intros [|i] w x H; simpl in H; try discriminate.
  - inversion H; subst. simpl update. rewrite !countb_cons. lia.
  - simpl update. rewrite !countb_cons. specialize (IH _ _ x H). lia.
Qed.

Lemma countb_pos :
  forall (A : Type) (f : A -> bool) l i w,
  nth_error l i = Some w -> f w = true -> (1 <= countb f l)%nat.
Proof.
  induction l as [|a l IH]; intros [|i] w H Hf; simpl in H; try discriminate;
    rewrite countb_cons.
  - inversion H; subst. rewrite Hf. simpl. lia.
  - specialize (IH _ _ H Hf). lia.
Qed.

Lemma countb_exists :
  forall (A : Type) (f : A -> bool) l,
  (1 <= countb f l)%nat ->
  exists i w, nth_error l i = Some w /\ f w = true.
Proof.
  induction l as [|a l IH]; intros H.
  - unfold countb in H. simpl in H. lia.
  - rewrite countb_cons in H. destruct (f a) eqn:E.
    + exists O, a. auto.
    + simpl in H. destruct (IH H) as (i & w & H1 & H2).
      exists (S i), w. auto.
Qed.


Lemma list_sum_update :
  forall (A : Type) (g : A -> nat) l i w x,
  nth_error l i = Some w ->
  (list_sum (map g (update l i x)) + g w = list_sum (map g l) + g x)%nat.
Proof.
  induction l as [|a l IH]; intros [|i] w x H; simpl in H; try discriminate.
  - inversion H; subst. simpl. lia.
  - simpl. specialize (IH _ _ x H). lia.
Qed.

(* ================================================================== *)
(** * The invariants of the scan *)

Section Invariants.

Variable cfg : Scan.

Lemma init_Control : Control cfg init.
Proof. constructor; simpl; auto; try lia; congruence. Qed.

Ltac worker_counts Hnth w' :=
  let H1 := fresh "Hlive" in
  let H2 := fresh "Hhold" in
  pose proof (countb_update _ live _ _ _ w' Hnth) as H1;
  pose proof (countb_update _ holds_ticket _ _ _ w' Hnth) as H2;
  cbn [live exited holds_ticket pc negb b2n] in H1, H2.

Ltac ctl_finish :=
  simpl; auto; try lia; try tauto;
  try (split; [lia | assumption]);
  try match goal with
      | H : match collector ?s with _ => _ end
        |- match collector ?s with _ => _ end =>
          destruct (collector s); congruence
      end.

Lemma main_step_Control :
  forall s s', Control cfg s -> main_step cfg s = Next s' ->
  Control cfg s'.
Proof.
  intros s s' [Hm Hwg Hsem Hcap Hcl Hco] H. unfold main_step in H.
  destruct (main_pc s) as [i|i port|i port| | | |] eqn:Em; simpl in *.
  - destruct (nth_error (ports cfg) i) as [port|] eqn:Ep;
      inversion H; subst; clear H;
      constructor; simpl; rewrite ?Em in *; ctl_finish.
    apply nth_error_None in Ep. lia.
  - destruct (sem s <? threads cfg)%nat eqn:E; [|discriminate].
    apply Nat.ltb_lt in E.
    inversion H; subst; clear H.
    constructor; simpl; rewrite ?Em in *; ctl_finish.
  - inversion H; subst; clear H.
    destruct Hm as [Hi Hp].
    assert (i < length (ports cfg))%nat
      by (apply nth_error_Some; congruence).
    constructor; simpl; rewrite ?Em in *;
      rewrite ?length_app, ?countb_app, ?countb_single; ctl_finish.
  - destruct (wg s =? 0)%nat eqn:E; [|discriminate].
    apply Nat.eqb_eq in E.
    inversion H; subst; clear H.
    constructor; simpl; rewrite ?Em in *; ctl_finish.
  - destruct (closed s); [discriminate|].
    inversion H; subst; clear H.
    constructor; simpl; rewrite ?Em in *; ctl_finish.
  - discriminate.
  - discriminate.
Qed.

Lemma worker_step_Control :
  forall i s s', Control cfg s -> worker_step cfg i s = Next s' ->
  Control cfg s'.
Proof.
  intros i s s' [Hm Hwg Hsem Hcap Hcl Hco] H. unfold worker_step in H.
  destruct (nth_error (workers s) i) as [[p [|r| | |]]|] eqn:Hnth;
    [| | | | |discriminate]; cbn [pc arg_p] in H.
  - inversion H; subst; clear H.
    worker_counts Hnth {| arg_p := p; pc := WSend (probe cfg i p) |}.
    constructor; simpl; rewrite ?update_length; ctl_finish;
      destruct (main_pc s); ctl_finish.
  - destruct (closed s) eqn:Ec; [discriminate|].
    destruct (collector s) eqn:Eco; try discriminate.
    inversion H; subst; clear H.
    worker_counts Hnth {| arg_p := p; pc := WRelease |}.
    constructor; simpl; rewrite ?update_length; ctl_finish;
      destruct (main_pc s); ctl_finish.
  - destruct (sem s) as [|k] eqn:Es; [discriminate|].
    inversion H; subst; clear H.
    worker_counts Hnth {| arg_p := p; pc := WDone |}.
    constructor; simpl; rewrite ?update_length; ctl_finish;
      destruct (main_pc s); ctl_finish.
  - destruct (wg s) as [|k] eqn:Es; [discriminate|].
    inversion H; subst; clear H.
    worker_counts Hnth {| arg_p := p; pc := WExit |}.
    constructor; simpl; rewrite ?update_length; ctl_finish;
      destruct (main_pc s); ctl_finish.
  - discriminate.
Qed.

Lemma collector_step_Control :
  forall s s', Control cfg s -> collector_step s = Next s' ->
  Control cfg s'.
Proof.
  intros s s' [Hm Hwg Hsem Hcap Hcl Hco] H. unfold collector_step in H.
  destruct (collector s) as [|r| |] eqn:Eco.
  - destruct (closed s) eqn:Ec; [|discriminate].
    inversion H; subst; clear H.
    constructor; simpl; auto.
    destruct (main_pc s); try discriminate; congruence.
  - inversion H; subst; clear H. constructor; simpl; auto.
  - destruct (main_pc s) eqn:Em; try discriminate.
    inversion H; subst; clear H.
    constructor; simpl; auto.
  - discriminate.
Qed.

Lemma step_Control :
  forall t s s', Control cfg s -> step cfg t s = Next s' -> Control cfg s'.
Proof.
  intros [|i|] s s' Hc H; simpl in H.
  - eapply main_step_Control; eauto.
  - eapply worker_step_Control; eauto.
  - eapply collector_step_Control; eauto.
Qed.

Lemma init_Data : Data cfg init.
Proof.
  constructor; simpl; auto.
  - intros [|j] w H; discriminate.
  - intros [|j] w r H; discriminate.
  - intros j r [].
  - intros j. unfold sent_at. destruct j; reflexivity.
Qed.

Lemma sent_at_update :
  forall ws i w w' j, nth_error ws i = Some w ->
  sent_at (update ws i w') j
  = if Nat.eqb j i then has_sent w' else sent_at ws j.
Proof.
  intros ws i w w' j H. unfold sent_at.
  destruct (Nat.eqb_spec j i) as [->|Hne].
  - now rewrite (nth_error_update_same _ _ _ _ _ H).
  - now rewrite nth_error_update_other.
Qed.

Lemma nth_error_update_inv :
  forall (A : Type) (l : list A) i x w j y,
  nth_error l i = Some w -> nth_error (update l i x) j = Some y ->
  (j = i /\ y = x) \/ (j <> i /\ nth_error l j = Some y).
Proof.
  intros A l i x w j y H Hy. destruct (Nat.eq_dec j i) as [->|Hne].
  - rewrite (nth_error_update_same _ _ _ _ _ H) in Hy. left. split; congruence.
  - rewrite nth_error_update_other in Hy by assumption. auto.
Qed.

Lemma count_occ_snoc :
  forall l (i j : nat),
  count_occ Nat.eq_dec (l ++ [i]) j
  = (count_occ Nat.eq_dec l j + if Nat.eqb j i then 1 else 0)%nat.
Proof.
  intros l i j. rewrite count_occ_app. simpl.
  destruct (Nat.eq_dec i j) as [->|Hne].
  - now rewrite Nat.eqb_refl.
  - destruct (Nat.eqb_spec j i); [congruence | reflexivity].
Qed.

Ltac data_worker Hnth Ha Hs :=
  split;
  [ intros j w Hj;
    destruct (nth_error_update_inv _ _ _ _ _ _ _ Hnth Hj)
      as [[-> ->]|[Hne Hj']];
    [ exact (Ha _ _ Hnth) | exact (Ha _ _ Hj') ]
  | intros j w r' Hj Hr;
    destruct (nth_error_update_inv _ _ _ _ _ _ _ Hnth Hj)
      as [[-> ->]|[Hne Hj']];
    [ simpl in Hr; try discriminate; try (inversion Hr; subst; reflexivity)
    | exact (Hs _ _ _ Hj' Hr) ]
  | | | ].

Lemma worker_step_Data :
  forall i s s', Data cfg s -> worker_step cfg i s = Next s' ->
  Data cfg s'.
Proof.
  intros i s s' [Ha Hs Hacc Honce Hres] H. unfold worker_step in H.
  destruct (nth_error (workers s) i) as [[p [|r| | |]]|] eqn:Hnth;
    [| | | | |discriminate]; cbn [pc arg_p] in H.
  - inversion H; subst; clear H.
    data_worker Hnth Ha Hs; simpl; auto.
    intros j. rewrite (sent_at_update _ _ _ _ _ Hnth), Honce.
    destruct (Nat.eqb_spec j i) as [->|]; auto.
    unfold sent_at. now rewrite Hnth.
  - destruct (closed s) eqn:Ec; [discriminate|].
    destruct (collector s) eqn:Eco; try discriminate.
    inversion H; subst; clear H.
    data_worker Hnth Ha Hs; simpl.
    + intros j r' Hin. apply in_app_or in Hin.
      destruct Hin as [Hin|[Hin|[]]]; [now apply Hacc|].
      inversion Hin; subst. exists p. split.
      * exact (Ha _ _ Hnth).
      * exact (Hs _ _ _ Hnth eq_refl).
    + intros j. rewrite map_app. simpl map. rewrite count_occ_snoc.
      rewrite (sent_at_update _ _ _ _ _ Hnth), Honce.
      destruct (Nat.eqb_spec j i) as [->|]; [|simpl; lia].
      unfold sent_at. rewrite Hnth. reflexivity.
    + rewrite map_app, filter_app, Hres. simpl.
      rewrite app_nil_r. reflexivity.
  - destruct (sem s) as [|k] eqn:Es; [discriminate|].
    inversion H; subst; clear H.
    data_worker Hnth Ha Hs; simpl; auto.
    intros j. rewrite (sent_at_update _ _ _ _ _ Hnth), Honce.
    destruct (Nat.eqb_spec j i) as [->|]; auto.
    unfold sent_at. now rewrite Hnth.
  - destruct (wg s) as [|k] eqn:Es; [discriminate|].
    inversion H; subst; clear H.
    data_worker Hnth Ha Hs; simpl; auto.
    intros j. rewrite (sent_at_update _ _ _ _ _ Hnth), Honce.
    destruct (Nat.eqb_spec j i) as [->|]; auto.
    unfold sent_at. now rewrite Hnth.
  - discriminate.
Qed.

Lemma main_step_Data :
  forall s s', Control cfg s -> Data cfg s -> main_step cfg s = Next s' ->
  Data cfg s'.
Proof.
  intros s s' [Hm _ _ _ _ _] [Ha Hs Hacc Honce Hres] H.
  unfold main_step in H.
  destruct (main_pc s) as [i|i port|i port| | | |] eqn:Em.
  - destruct (nth_error (ports cfg) i);
      inversion H; subst; clear H; constructor; simpl; auto.
  - destruct (sem s <? threads cfg)%nat; [|discriminate].
    inversion H; subst; clear H; constructor; simpl; auto.
  - inversion H; subst; clear H. destruct Hm as [Hi Hp].
    constructor; simpl; auto.
    + intros j w Hj.
      destruct (Nat.lt_ge_cases j (length (workers s))) as [Hlt|Hge].
      * rewrite nth_error_app1 in Hj by assumption. now apply Ha.
      * rewrite nth_error_app2 in Hj by assumption.
        destruct (j - length (workers s))%nat as [|k] eqn:Ek.
        -- simpl in Hj. inversion Hj; subst. simpl.
           replace j with (length (workers s)) by lia. exact Hp.
        -- destruct k; discriminate.
    + intros j w r Hj Hr.
      destruct (Nat.lt_ge_cases j (length (workers s))) as [Hlt|Hge].
      * rewrite nth_error_app1 in Hj by assumption. eapply Hs; eauto.
      * rewrite nth_error_app2 in Hj by assumption.
        destruct (j - length (workers s))%nat as [|k] eqn:Ek.
        -- simpl in Hj. inversion Hj; subst. discriminate.
        -- destruct k; discriminate.
    + intros j. rewrite Honce. f_equal. unfold sent_at.
      destruct (Nat.lt_ge_cases j (length (workers s))) as [Hlt|Hge].
      * now rewrite nth_error_app1.
      * rewrite nth_error_app2 by assumption.
        replace (nth_error (workers s) j) with (@None Worker)
          by (symmetry; now apply nth_error_None).
        destruct (j - length (workers s))%nat as [|[|k]]; reflexivity.
  - destruct (wg s =? 0)%nat; [|discriminate].
    inversion H; subst; clear H; constructor; simpl; auto.
  - destruct (closed s); [discriminate|].
    inversion H; subst; clear H; constructor; simpl; auto.
  - discriminate.
  - discriminate.
Qed.

Lemma collector_step_Data :
  forall s s', Data cfg s -> collector_step s = Next s' -> Data cfg s'.
Proof.
  intros s s' [Ha Hs Hacc Honce Hres] H. unfold collector_step in H.
  destruct (collector s) as [|r| |] eqn:Eco.
  - destruct (closed s); [|discriminate].
    inversion H; subst; clear H; constructor; simpl; auto.
  - inversion H; subst; clear H; constructor; simpl; auto.
    rewrite Hres. simpl. destruct (is_open r); now rewrite app_nil_r.
  - destruct (main_pc s); try discriminate.
    inversion H; subst; clear H; constructor; simpl; auto.
  - discriminate.
Qed.

Lemma step_Data :
  forall t s s', Control cfg s -> Data cfg s -> step cfg t s = Next s' ->
  Data cfg s'.
Proof.
  intros [|i|] s s' Hc Hd H; simpl in H.
  - eapply main_step_Data; eauto.
  - eapply worker_step_Data; eauto.
  - eapply collector_step_Data; eauto.
Qed.

(** Both invariants hold in every state a schedule leads to. *)
Lemma exec_invariant :
  forall sched s0 s, Control cfg s0 -> Data cfg s0 ->
  exec cfg sched s0 = Next s -> Control cfg s /\ Data cfg s.
Proof.
  induction sched as [|t sched IH]; intros s0 s Hc Hd H.
  - simpl in H. inversion H; subst. auto.
  - simpl in H. destruct (step cfg t s0) as [s1| |] eqn:E; try discriminate.
    eapply IH; [| |exact H].
    + eapply step_Control; eauto.
    + eapply step_Data; eauto.
Qed.

Lemma reachable_invariant :
  forall sched s, exec cfg sched init = Next s ->
  Control cfg s /\ Data cfg s.
Proof.
  intros sched s H.
  eapply exec_invariant; [apply init_Control | apply init_Data | exact H].
Qed.

(* ================================================================== *)
(** * No panic, no deadlock, termination *)

Lemma holds_ticket_live : forall w, holds_ticket w = true -> live w = true.
Proof. intros [p []]; simpl; auto. Qed.

Lemma live_worker_counted :
  forall s i w, Control cfg s -> nth_error (workers s) i = Some w ->
  live w = true -> (1 <= wg s)%nat.
Proof.
  intros s i w Hc Hnth Hl. rewrite (ctl_wg _ _ Hc).
  pose proof (countb_pos _ live _ _ _ Hnth Hl). lia.
Qed.

Lemma live_worker_open :
  forall s i w, Control cfg s -> nth_error (workers s) i = Some w ->
  live w = true -> closed s = false.
Proof.
  intros s i w Hc Hnth Hl.
  pose proof (live_worker_counted _ _ _ Hc Hnth Hl) as Hwg.
  rewrite (ctl_closed _ _ Hc). pose proof (ctl_main _ _ Hc) as Hm.
  destruct (main_pc s); auto; lia.
Qed.

(** No step of a reachable state panics: no send on the closed channel,
    no second [close], no negative [WaitGroup] counter. *)
Lemma step_no_panic :
  forall t s, Control cfg s -> step cfg t s <> Panic.
Proof.
  intros [|i|] s Hc; simpl.
  - unfold main_step. pose proof (ctl_closed _ _ Hc) as Hcl.
    destruct (main_pc s); try discriminate.
    + destruct (nth_error (ports cfg) i); discriminate.
    + destruct (sem s <? threads cfg)%nat; discriminate.
    + destruct (wg s =? 0)%nat; discriminate.
    + rewrite Hcl. discriminate.
  - unfold worker_step.
    destruct (nth_error (workers s) i) as [[p [|r| | |]]|] eqn:Hnth;
      cbn [pc arg_p]; try discriminate.
    + rewrite (live_worker_open _ _ _ Hc Hnth eq_refl).
      destruct (collector s); discriminate.
    + destruct (sem s); discriminate.
    + pose proof (live_worker_counted _ _ _ Hc Hnth eq_refl).
      destruct (wg s); [lia | discriminate].
  - unfold collector_step. destruct (collector s); try discriminate.
    + destruct (closed s); discriminate.
    + destruct (main_pc s); discriminate.
Qed.

Lemma In_all_threads_worker :
  forall s i w, nth_error (workers s) i = Some w ->
  In (TWorker i) (all_threads s).
Proof.
  intros s i w H. unfold all_threads. right. right.
  apply in_map. apply in_seq.
  assert (i < length (workers s))%nat by (apply nth_error_Some; congruence).
  lia.
Qed.

(** A goroutine that has not ended can move, or the collector can. *)
Lemma live_worker_moves :
  forall s i w, Control cfg s -> nth_error (workers s) i = Some w ->
  live w = true ->
  exists t s', In t (all_threads s) /\ step cfg t s = Next s'.
Proof.
  intros s i w Hc Hnth Hl.
  pose proof (live_worker_open _ _ _ Hc Hnth Hl) as Hopen.
  pose proof (live_worker_counted _ _ _ Hc Hnth Hl) as Hwg.
  pose proof (In_all_threads_worker _ _ _ Hnth) as Hin.
  destruct w as [p [|r| | |]]; try discriminate.
  - exists (TWorker i). eexists. split; [exact Hin|].
    simpl. unfold worker_step. rewrite Hnth. reflexivity.
  - destruct (collector s) as [|r'| |] eqn:Eco.
    + exists (TWorker i). eexists. split; [exact Hin|].
      simpl. unfold worker_step. rewrite Hnth. cbn [pc].
      rewrite Hopen, Eco. reflexivity.
    + exists TCollector. eexists. split; [left; reflexivity|].
      simpl. unfold collector_step. rewrite Eco. reflexivity.
    + pose proof (ctl_collector _ _ Hc) as Hco. rewrite Eco in Hco.
      pose proof (ctl_closed _ _ Hc) as Hcl. rewrite Hco in Hcl. congruence.
    + pose proof (ctl_collector _ _ Hc) as Hco. rewrite Eco in Hco.
      pose proof (ctl_closed _ _ Hc) as Hcl. rewrite Hco in Hcl. congruence.
  - assert (Hs : (1 <= sem s)%nat).
    { rewrite (ctl_sem _ _ Hc).
      pose proof (countb_pos _ holds_ticket _ _ _ Hnth eq_refl). lia. }
    exists (TWorker i). destruct (sem s) as [|k] eqn:Es; [lia|].
    eexists. split; [exact Hin|].
    simpl. unfold worker_step. rewrite Hnth. cbn [pc]. rewrite Es. reflexivity.
  - exists (TWorker i). destruct (wg s) as [|k] eqn:Ew; [lia|].
    eexists. split; [exact Hin|].
    simpl. unfold worker_step. rewrite Hnth. cbn [pc]. rewrite Ew. reflexivity.
Qed.

(** With a semaphore of capacity at least one, a reachable state in which
    the scan is not complete has a step. *)
Lemma progress :
  (1 <= threads cfg)%nat -> forall s, Control cfg s ->
  main_pc s <> MJoined ->
  exists t s', In t (all_threads s) /\ step cfg t s = Next s'.
Proof.
  intros Hthr s Hc Hnj.
  assert (Hmain : forall s', main_step cfg s = Next s' ->
            exists t s', In t (all_threads s) /\ step cfg t s = Next s').
  { intros s' E. exists TMain, s'.
    split; [right; left; reflexivity | exact E]. }
  destruct (main_pc s) as [i|i port|i port| | | |] eqn:Em.
  - unfold main_step in Hmain. rewrite Em in Hmain.
    destruct (nth_error (ports cfg) i); eapply Hmain; reflexivity.
  - destruct (sem s <? threads cfg)%nat eqn:E.
    + unfold main_step in Hmain. rewrite Em, E in Hmain.
      eapply Hmain; reflexivity.
    + apply Nat.ltb_ge in E.
      pose proof (ctl_sem _ _ Hc) as Hs. rewrite Em in Hs. simpl in Hs.
      destruct (countb_exists _ holds_ticket (workers s)) as (j & w & Hj & Hw);
        [lia|].
      eapply live_worker_moves; eauto. now apply holds_ticket_live.
  - unfold main_step in Hmain. rewrite Em in Hmain.
    eapply Hmain; reflexivity.
  - destruct (wg s =? 0)%nat eqn:E.
    + unfold main_step in Hmain. rewrite Em, E in Hmain.
      eapply Hmain; reflexivity.
    + apply Nat.eqb_neq in E.
      pose proof (ctl_wg _ _ Hc) as Hw. rewrite Em in Hw. simpl in Hw.
      destruct (countb_exists _ live (workers s)) as (j & w & Hj & Hl); [lia|].
      eapply live_worker_moves; eauto.
  - pose proof (ctl_closed _ _ Hc) as Hcl. rewrite Em in Hcl.
    unfold main_step in Hmain. rewrite Em, Hcl in Hmain.
    eapply Hmain; reflexivity.
  - pose proof (ctl_closed _ _ Hc) as Hcl. rewrite Em in Hcl.
    pose proof (ctl_collector _ _ Hc) as Hco.
    exists TCollector.
    destruct (collector s) as [|r| |] eqn:Eco.
    + eexists. split; [left; reflexivity|].
      simpl. unfold collector_step. rewrite Eco, Hcl. reflexivity.
    + eexists. split; [left; reflexivity|].
      simpl. unfold collector_step. rewrite Eco. reflexivity.
    + eexists. split; [left; reflexivity|].
      simpl. unfold collector_step. rewrite Eco, Em. reflexivity.
    + congruence.
  - congruence.
Qed.

(** Every step uses up some of [steps_left]. *)
Lemma step_decreases :
  forall t s s', Control cfg s -> step cfg t s = Next s' ->
  (steps_left cfg s' < steps_left cfg s)%nat.
Proof.
  intros [|i|] s s' Hc H; simpl in H; unfold steps_left.
  - pose proof (ctl_main _ _ Hc) as Hm. unfold main_step in H.
    destruct (main_pc s) as [j|j port|j port| | | |] eqn:Em;
      try discriminate.
    + destruct (nth_error (ports cfg) j); inversion H; subst; simpl; lia.
    + destruct (sem s <? threads cfg)%nat; [|discriminate].
      inversion H; subst; simpl; lia.
    + inversion H; subst; simpl. destruct Hm as [Hj Hp].
      assert (j < length (ports cfg))%nat
        by (apply nth_error_Some; congruence).
      rewrite map_app, list_sum_app. simpl. lia.
    + destruct (wg s =? 0)%nat; [|discriminate].
      inversion H; subst; simpl; lia.
    + destruct (closed s); [discriminate|].
      inversion H; subst; simpl; lia.
  - unfold worker_step in H.
    destruct (nth_error (workers s) i) as [[p [|r| | |]]|] eqn:Hnth;
      [| | | | |discriminate]; cbn [pc arg_p] in H.
    + inversion H; subst; simpl.
      pose proof (list_sum_update _ worker_rank _ _ _
                    {| arg_p := p; pc := WSend (probe cfg i p) |} Hnth) as E.
      cbn [worker_rank pc] in E. lia.
    + destruct (closed s); [discriminate|].
      destruct (collector s) eqn:Eco; try discriminate.
      inversion H; subst; simpl.
      pose proof (list_sum_update _ worker_rank _ _ _
                    {| arg_p := p; pc := WRelease |} Hnth) as E.
      cbn [worker_rank pc] in E. lia.
    + destruct (sem s); [discriminate|].
      inversion H; subst; simpl.
      pose proof (list_sum_update _ worker_rank _ _ _
                    {| arg_p := p; pc := WDone |} Hnth) as E.
      cbn [worker_rank pc] in E. lia.
    + destruct (wg s); [discriminate|].
      inversion H; subst; simpl.
      pose proof (list_sum_update _ worker_rank _ _ _
                    {| arg_p := p; pc := WExit |} Hnth) as E.
      cbn [worker_rank pc] in E. lia.
    + discriminate.
  - unfold collector_step in H.
    destruct (collector s) eqn:Eco.
    + destruct (closed s); [|discriminate]. inversion H; subst; simpl; lia.
    + inversion H; subst; simpl; lia.
    + destruct (main_pc s) eqn:Em; try discriminate.
      inversion H; subst; simpl; lia.
    + discriminate.
Qed.

(** A schedule is no longer than the bound of the state it starts from. *)
Lemma exec_bounded :
  forall sched s0 s, Control cfg s0 -> exec cfg sched s0 = Next s ->
  (length sched + steps_left cfg s <= steps_left cfg s0)%nat.
Proof.
  induction sched as [|t sched IH]; intros s0 s Hc H; simpl in H.
  - inversion H; subst. simpl. lia.
  - destruct (step cfg t s0) as [s1| |] eqn:E; try discriminate.
    pose proof (step_decreases _ _ _ Hc E).
    pose proof (IH _ _ (step_Control _ _ _ Hc E) H). simpl. lia.
Qed.

Lemma first_enabled_Some :
  forall ts s t s', first_enabled cfg ts s = Some (t, s') ->
  step cfg t s = Next s'.
Proof.
  induction ts as [|t0 ts IH]; intros s t s' H; simpl in H.
  - discriminate.
  - destruct (step cfg t0 s) eqn:E; auto; inversion H; subst; exact E.
Qed.

Lemma first_enabled_None :
  forall ts s t, first_enabled cfg ts s = None -> In t ts ->
  forall s', step cfg t s <> Next s'.
Proof.
  induction ts as [|t0 ts IH]; intros s t H Hin s'; simpl in *.
  - contradiction.
  - destruct (step cfg t0 s) eqn:E; try discriminate;
      (destruct Hin as [->|Hin]; [congruence | now apply IH]).
Qed.

(** The scheduling policy of [run] completes the scan. *)
Lemma run_completes :
  (1 <= threads cfg)%nat -> forall fuel s, Control cfg s ->
  (steps_left cfg s <= fuel)%nat ->
  exec cfg (fst (run cfg fuel s)) s = Next (snd (run cfg fuel s))
  /\ main_pc (snd (run cfg fuel s)) = MJoined.
Proof.
  intros Hthr. induction fuel as [|f IH]; intros s Hc Hf.
  - simpl. split; auto.
    destruct (main_pc s) eqn:Em; auto; exfalso.
    all: try (unfold steps_left in Hf; rewrite Em in Hf; simpl in Hf; lia).
    pose proof (ctl_collector _ _ Hc) as Hco.
    unfold steps_left in Hf. rewrite Em in Hf. simpl in Hf.
    destruct (collector s); simpl in Hf; try lia. congruence.
  - cbn [run].
    destruct (first_enabled cfg (all_threads s) s) as [[t s']|] eqn:E.
    + apply first_enabled_Some in E.
      pose proof (step_decreases _ _ _ Hc E).
      destruct (IH s' (step_Control _ _ _ Hc E) ltac:(lia)) as [H1 H2].
      destruct (run cfg f s') as [ts s''] eqn:Er.
      cbn [fst snd exec] in *. rewrite E. auto.
    + simpl. split; auto.
      destruct (main_pc s) eqn:Em; auto; exfalso.
      all: destruct (progress Hthr s Hc ltac:(congruence))
             as (t & s' & Hin & Hs);
        exact (first_enabled_None _ _ _ E Hin _ Hs).
Qed.

(* ================================================================== *)
(** * The state of a complete scan *)

Lemma In_probes_from :
  forall ps i j r,
  In (j, r) (probes_from cfg i ps)
  <-> (i <= j)%nat
      /\ exists p, nth_error ps (j - i) = Some p /\ r = probe cfg j p.
Proof.
  induction ps as [|p ps IH]; intros i j r; simpl.
  - split; [contradiction|]. intros (_ & p & H & _).
    destruct (j - i)%nat; discriminate.
  - rewrite IH. split.
    + intros [E|(Hle & q & Hq & Hr)].
      * inversion E; subst. split; [lia|]. exists p.
        rewrite Nat.sub_diag. auto.
      * split; [lia|]. exists q.
        replace (j - i)%nat with (S (j - S i)) by lia. auto.
    + intros (Hle & q & Hq & Hr).
      destruct (Nat.eq_dec i j) as [->|Hne].
      * left. rewrite Nat.sub_diag in Hq. simpl in Hq. congruence.
      * right. split; [lia|]. exists q.
        replace (j - i)%nat with (S (j - S i)) in Hq by lia. auto.
Qed.

Lemma probes_from_fst :
  forall ps i, map fst (probes_from cfg i ps) = seq i (length ps).
Proof.
  induction ps as [|p ps IH]; intros i; simpl; auto.
  now rewrite IH.
Qed.

Lemma probes_from_length :
  forall ps i, length (probes_from cfg i ps) = length ps.
Proof.
  intros ps i. rewrite <- (length_map fst), probes_from_fst.
  apply length_seq.
Qed.

Lemma NoDup_of_fst :
  forall (A B : Type) (l : list (A * B)), NoDup (map fst l) -> NoDup l.
Proof. intros A B l. apply NoDup_map_inv. Qed.

Lemma all_exited :
  forall s, Control cfg s -> wg s = O ->
  forall j w, nth_error (workers s) j = Some w -> pc w = WExit.
Proof.
  intros s Hc Hwg j w Hj.
  destruct (live w) eqn:Hl.
  - pose proof (live_worker_counted _ _ _ Hc Hj Hl). lia.
  - unfold live, exited in Hl. destruct (pc w); simpl in Hl; congruence.
Qed.

(** When the scan is complete, the collector has received exactly the
    expected results, each once. *)
Lemma joined_accepted :
  forall s, Control cfg s -> Data cfg s -> main_pc s = MJoined ->
  Permutation (accepted s) (expected cfg).
Proof.
  intros s Hc Hd Hj.
  pose proof (ctl_main _ _ Hc) as Hm. rewrite Hj in Hm.
  destruct Hm as [Hlen Hwg].
  assert (Hsent : forall j,
            sent_at (workers s) j = (j <? length (ports cfg))%nat).
  { intros j. unfold sent_at.
    destruct (nth_error (workers s) j) as [w|] eqn:E.
    - assert (j < length (workers s))%nat
        by (apply nth_error_Some; congruence).
      unfold has_sent. rewrite (all_exited _ Hc Hwg _ _ E).
      symmetry. apply Nat.ltb_lt. lia.
    - apply nth_error_None in E. symmetry. apply Nat.ltb_ge. lia. }
  apply NoDup_Permutation.
  - apply NoDup_of_fst. apply (NoDup_count_occ Nat.eq_dec).
    intros j. rewrite (dat_once _ _ Hd). destruct (sent_at (workers s) j);
      simpl; lia.
  - apply NoDup_of_fst. unfold expected. rewrite probes_from_fst.
    apply seq_NoDup.
  - intros [j r]. unfold expected. rewrite In_probes_from. split.
    + intros Hin. split; [lia|]. rewrite Nat.sub_0_r.
      exact (dat_accepted _ _ Hd _ _ Hin).
    + intros (_ & p & Hp & Hr). rewrite Nat.sub_0_r in Hp.
      assert (Hlt : (j < length (ports cfg))%nat)
        by (apply nth_error_Some; congruence).
      assert (Hin : In j (map fst (accepted s))).
      { apply (count_occ_In Nat.eq_dec). rewrite (dat_once _ _ Hd), Hsent.
        apply Nat.ltb_lt in Hlt. rewrite Hlt. simpl. lia. }
      apply in_map_iff in Hin. destruct Hin as ([j' r'] & E & Hin).
      simpl in E. subst j'.
      destruct (dat_accepted _ _ Hd _ _ Hin) as (p' & Hp' & Hr').
      assert (p' = p) by congruence. subst. exact Hin.
Qed.

Lemma joined_results :
  forall s, Control cfg s -> Data cfg s -> main_pc s = MJoined ->
  results s = filter is_open (map snd (accepted s)).
Proof.
  intros s Hc Hd Hj.
  pose proof (ctl_collector _ _ Hc) as Hco.
  rewrite (dat_results _ _ Hd).
  destruct (collector s); try congruence.
  simpl. now rewrite app_nil_r.
Qed.

Lemma joined_collector :
  forall s, Control cfg s -> main_pc s = MJoined -> collector s = CExit.
Proof.
  intros s Hc Hj. pose proof (ctl_collector _ _ Hc) as Hco.
  destruct (collector s); congruence.
Qed.

Lemma Permutation_filter :
  forall (A : Type) (f : A -> bool) l l',
  Permutation l l' -> Permutation (filter f l) (filter f l').
Proof.
  intros A f l l' H. induction H; simpl.
  - constructor.
  - destruct (f x); auto.
  - destruct (f x), (f y); auto. constructor.
  - eapply Permutation_trans; eauto.
Qed.

(** The slice [results] of a complete scan: the open results among the
    expected ones, in the order the collector received them. *)
Lemma joined_results_expected :
  forall s, Control cfg s -> Data cfg s -> main_pc s = MJoined ->
  Permutation (results s) (filter is_open (map snd (expected cfg))).
Proof.
  intros s Hc Hd Hj. rewrite (joined_results _ Hc Hd Hj).
  apply Permutation_filter, Permutation_map. now apply joined_accepted.
Qed.

End Invariants.

(* ================================================================== *)
(** * Facts about [scanPort] *)

Lemma scanPort_Port :
  forall net host port timeout, Port (scanPort net host port timeout) = port.
Proof.
  intros net host port timeout. unfold scanPort, scanPort_trace. cbv zeta.
  destruct (net (address host port) timeout) as [[conn|] [e|]].
  - destruct e as [[|]|]; reflexivity.
  - destruct (commonPorts port); [reflexivity|].
    destruct (SetReadDeadline conn (200 * Millisecond)); [reflexivity|].
    destruct (snd (Read conn 1024)); reflexivity.
  - destruct e as [[|]|]; reflexivity.
  - reflexivity.
Qed.

Lemma scanPort_failed :
  forall net host port timeout conn e,
  net (address host port) timeout = (conn, Some e) ->
  scanPort_trace net host port timeout
  = ({| Port := port;
        State := match e with
                 | NetError true => "filtered"
                 | _ => "closed"
                 end;
        Service := "unknown" |},
     [EvDial (address host port) timeout]).
Proof.
  intros net host port timeout conn e H. unfold scanPort_trace. cbv zeta.
  rewrite H. destruct conn; destruct e as [[|]|]; reflexivity.
Qed.

Lemma scanPort_connected :
  forall net host port timeout conn,
  net (address host port) timeout = (Some conn, None) ->
  scanPort net host port timeout
  = {| Port := port; State := "open";
       Service := match commonPorts port with
                  | Some name => name
                  | None =>
                      if SetReadDeadline conn (200 * Millisecond)
                         || snd (Read conn 1024)
                      then "unknown" else "custom-service"
                  end |}.
Proof.
  intros net host port timeout conn H. unfold scanPort, scanPort_trace.
  cbv zeta. rewrite H. destruct (commonPorts port); [reflexivity|].
  destruct (SetReadDeadline conn (200 * Millisecond)); [reflexivity|].
  destruct (snd (Read conn 1024)); reflexivity.
Qed.

(* ================================================================== *)
(** * Facts about sorting and the ports of the results *)

Lemma insert_by_port_perm :
  forall r l, Permutation (r :: l) (insert_by_port r l).
Proof.
  intros r. induction l as [|h t IH]; simpl; auto.
  destruct (less r h); auto.
  eapply Permutation_trans; [apply perm_swap|]. now constructor.
Qed.

Lemma insert_by_port_sorted :
  forall r l, StronglySorted (fun a b => less b a = false) l ->
  StronglySorted (fun a b => less b a = false) (insert_by_port r l).
Proof.
  intros r. induction l as [|h t IH]; intros H; simpl.
  - repeat constructor.
  - apply StronglySorted_inv in H. destruct H as [Ht Hh].
    unfold less in *.
    destruct (Port r <? Port h) eqn:E.
    + constructor; [now constructor|].
      apply Z.ltb_lt in E. constructor.
      * apply Z.ltb_ge. lia.
      * eapply Forall_impl; [|exact Hh]. intros a Ha. simpl in Ha.
        apply Z.ltb_ge in Ha. apply Z.ltb_ge. lia.
    + constructor; [now apply IH|].
      apply Z.ltb_ge in E.
      eapply Permutation_Forall; [apply insert_by_port_perm|].
      constructor; [apply Z.ltb_ge; lia | exact Hh].
Qed.

(** The sort of the model keeps the promise of [sort.Slice]. *)
Lemma sort_Slice_sorted : forall l, sorted_by_less l (sort_Slice l).
Proof.
  induction l as [|r l [IH1 IH2]]; simpl.
  - split; constructor.
  - split.
    + eapply Permutation_trans; [|apply insert_by_port_perm]. now constructor.
    + now apply insert_by_port_sorted.
Qed.

Lemma StronglySorted_impl :
  forall (A : Type) (R R' : A -> A -> Prop) l,
  (forall a b, R a b -> R' a b) -> StronglySorted R l -> StronglySorted R' l.
Proof.
  intros A R R' l H Hs. induction Hs; constructor; auto.
  eapply Forall_impl; [|eassumption]. auto.
Qed.

Lemma sorted_by_less_le :
  forall before after, sorted_by_less before after ->
  StronglySorted (fun a b => Port a <= Port b) after.
Proof.
  intros before after [_ H]. eapply StronglySorted_impl; [|exact H].
  intros a b E. unfold less in E. now apply Z.ltb_ge in E.
Qed.

Lemma sorted_strict :
  forall l, StronglySorted (fun a b => Port a <= Port b) l ->
  NoDup (map Port l) ->
  StronglySorted (fun a b => Port a < Port b) l.
Proof.
  induction l as [|a l IH]; intros Hs Hn; [constructor|].
  apply StronglySorted_inv in Hs. destruct Hs as [Hs Ha].
  simpl in Hn. inversion Hn as [|? ? Hnin Hn']; subst.
  constructor; [now apply IH|].
  rewrite Forall_forall in *. intros b Hb.
  specialize (Ha b Hb).
  assert (Port a <> Port b).
  { intros E. apply Hnin. rewrite E. now apply in_map. }
  lia.
Qed.

Lemma NoDup_map_filter :
  forall (A B : Type) (f : A -> B) (g : A -> bool) l,
  NoDup (map f l) -> NoDup (map f (filter g l)).
Proof.
  intros A B f g. induction l as [|a l IH]; intros H; simpl in *; auto.
  inversion H as [|? ? Hnin Hn]; subst.
  destruct (g a); simpl; auto.
  constructor; auto.
  intros Hin. apply Hnin. apply in_map_iff in Hin.
  destruct Hin as (x & E & Hx). apply filter_In in Hx.
  apply in_map_iff. exists x. tauto.
Qed.

Lemma probes_from_ports :
  forall world host timeout c ps0 ps i,
  map Port (map snd (probes_from (scan_cfg world host timeout c ps0) i ps))
  = ps.
Proof.
  intros world host timeout c ps0. induction ps as [|p ps IH]; intros i;
    simpl; auto.
  now rewrite scanPort_Port, IH.
Qed.

(** [run] only takes steps of the model. *)
Lemma run_exec :
  forall cfg fuel s,
  exec cfg (fst (run cfg fuel s)) s = Next (snd (run cfg fuel s)).
Proof.
  intros cfg. induction fuel as [|f IH]; intros s; [reflexivity|].
  cbn [run].
  destruct (first_enabled cfg (all_threads s) s) as [[t s']|] eqn:E;
    [|reflexivity].
  apply first_enabled_Some in E. specialize (IH s').
  destruct (run cfg f s') as [ts s'']. cbn [fst snd exec] in *.
  now rewrite E.
Qed.

(** What [main_scan] computes is one of the reports of [main]. *)
Lemma main_scan_yields :
  forall fuel world host portRange c ms out count,
  main_scan fuel world host portRange c ms = Some (out, count) ->
  scan_yields world host portRange c ms out count.
Proof.
  intros fuel world host portRange c ms out count H. unfold main_scan in H.
  destruct (parsePortRange fuel portRange) as [[parsed [e|]]|] eqn:Ep;
    try discriminate.
  cbv zeta in H.
  pose proof (run_exec (scan_cfg world host (timeoutDuration ms) c
                          (default_ports parsed)) fuel init) as Hr.
  destruct (run (scan_cfg world host (timeoutDuration ms) c
                   (default_ports parsed)) fuel init) as [ts s].
  cbn [fst snd] in Hr.
  destruct (main_pc s) eqn:Em; try discriminate.
  inversion H; subst.
  exists fuel, parsed, ts, s. repeat split; auto.
  - apply sort_Slice_sorted.
  - apply sort_Slice_sorted.
Qed.

(** With a semaphore of capacity at least one, [main] reports something
    for every specification that resolves. *)
Lemma scan_yields_exists :
  forall world host portRange c ms fuel parsed,
  (1 <= c)%nat ->
  parsePortRange fuel portRange = Some (parsed, None) ->
  exists out count, scan_yields world host portRange c ms out count.
Proof.
  intros world host portRange c ms fuel parsed Hc Hp.
  set (cfg := scan_cfg world host (timeoutDuration ms) c
                (default_ports parsed)).
  destruct (run_completes cfg Hc (steps_left cfg init) init)
    as [He Hj]; auto.
  - apply init_Control.
  - exists (sort_Slice (results (snd (run cfg (steps_left cfg init) init)))),
      (length (default_ports parsed)).
    exists fuel, parsed, (fst (run cfg (steps_left cfg init) init)),
      (snd (run cfg (steps_left cfg init) init)).
    repeat split; auto; apply sort_Slice_sorted.
Qed.

(** The report of a complete scan, whatever the interleaving and the
    sort: the open results among the expected ones, ordered by port. *)
Lemma joined_report :
  forall cfg sched s out,
  exec cfg sched init = Next s -> main_pc s = MJoined ->
  sorted_by_less (results s) out ->
  Permutation out (filter is_open (map snd (expected cfg)))
  /\ StronglySorted (fun a b => Port a <= Port b) out.
Proof.
  intros cfg sched s out He Hj Hs.
  destruct (reachable_invariant _ _ _ He) as [Hc Hd].
  split.
  - eapply Permutation_trans.
    + apply Permutation_sym. exact (proj1 Hs).
    + now apply joined_results_expected.
  - eapply sorted_by_less_le; eauto.
Qed.

Lemma parse_7999_8001 :
  forall fuel parsed,
  parsePortRange fuel "7999-8001" = Some (parsed, None) ->
  parsed = [7999; 8000; 8001].
Proof.
  intros fuel parsed H.
  destruct fuel as [|[|[|[|f]]]]; try (vm_compute in H; discriminate).
  change "7999-8001" with (spec_text [Range 7999 8001]) in H.
  rewrite parsePortRange_valid in H.
  - inversion H. reflexivity.
  - repeat constructor; simpl; unfold max_int; lia.
  - constructor; [|constructor].
    change (4 <= S (S (S (S f))))%nat. lia.
Qed.

(** The scan of ports 7999 to 8001 of a host on which only port 8000
    accepts connections. *)
Lemma scan_7999_8001 :
  forall world host timeout c (conn : nat -> Conn) sched s out,
  (forall i t, world i (address host 8000) t = (Some (conn i), None)) ->
  (forall i t, world i (address host 7999) t = (None, Some (NetError false))) ->
  (forall i t, world i (address host 8001) t = (None, Some (NetError false))) ->
  exec (scan_cfg world host timeout c [7999; 8000; 8001]) sched init = Next s ->
  main_pc s = MJoined ->
  sorted_by_less (results s) out ->
  out = [ {| Port := 8000; State := "open";
             Service := if SetReadDeadline (conn 1%nat) (200 * Millisecond)
                           || snd (Read (conn 1%nat) 1024)
                        then "unknown" else "custom-service" |} ].
Proof.
  intros world host timeout c conn sched s out H8000 H7999 H8001 He Hj Hs.
  destruct (joined_report _ _ _ _ He Hj Hs) as [Hp _].
  unfold expected in Hp. cbn [scan_cfg ports probes_from probe map snd] in Hp.
  unfold scanPort at 1 in Hp.
  rewrite (scanPort_failed _ _ _ _ _ _ (H7999 0%nat timeout)) in Hp.
  rewrite (scanPort_connected _ _ _ _ _ (H8000 1%nat timeout)) in Hp.
  unfold scanPort at 1 in Hp.
  rewrite (scanPort_failed _ _ _ _ _ _ (H8001 2%nat timeout)) in Hp.
  change (commonPorts 8000) with (@None string) in Hp.
  cbn [filter is_open State fst String.eqb Ascii.eqb Bool.eqb] in Hp.
  apply Permutation_sym, Permutation_length_1_inv in Hp. exact Hp.
Qed.

(* ================================================================== *)
(** * Properties of the port-set resolver *)

Lemma format_d_negative :
  forall n, n < 0 ->
  exists ds, format_d n = String "-" ds /\ all_digits ds = true.
Proof.
  intros n Hn. unfold format_d.
  replace (n <? 0) with true by (symmetry; apply Z.ltb_lt; lia).
  destruct (utoa_digits (digits_bound (- n)) (- n) EmptyString)
    as (ds & m & H1 & _ & H3 & _).
  - unfold digits_bound. lia.
  - split; [lia | apply digits_bound_enough; lia].
  - exists ds. rewrite H1, sapp_nil_r. auto.
Qed.

(** C7. A specification written from valid tokens (single ports and
    inclusive ranges, in decimal, separated by commas) resolves, and the
    resolved list is the ports of the tokens in token order: the port of a
    single, every integer of a range from its start to its end. *)
Theorem C7_valid_spec_resolves :
  forall (ts : list Token) (fuel : nat),
  Forall valid_token ts ->
  Forall (fun t => (token_fuel t <= fuel)%nat) ts ->
  parsePortRange fuel (spec_text ts)
  = Some (concat (map token_ports ts), None).
Proof. intros ts fuel Hv Hf. now apply parsePortRange_valid. Qed.

Lemma C7_witness :
  Forall valid_token [Single 22; Single 80; Range 100 200]
  /\ Forall (fun t => (token_fuel t <= 102)%nat)
       [Single 22; Single 80; Range 100 200]
  /\ spec_text [Single 22; Single 80; Range 100 200] = "22,80,100-200"
  /\ parsePortRange 102 "22,80,100-200"
     = Some ((22 :: 80 :: Zrange 100 200)%list, None)
  /\ length (22 :: 80 :: Zrange 100 200) = 103%nat.
Proof.
  assert (Hv : Forall valid_token [Single 22; Single 80; Range 100 200])
    by (repeat constructor; simpl; unfold max_int; lia).
  assert (Hf : Forall (fun t => (token_fuel t <= 102)%nat)
                 [Single 22; Single 80; Range 100 200])
    by (repeat constructor; simpl; lia).
  split; [exact Hv|]. split; [exact Hf|]. split; [reflexivity|].
  split; [|reflexivity].
  exact (C7_valid_spec_resolves [Single 22; Single 80; Range 100 200] 102
           Hv Hf).
Defined.

(** C8. Resolution fails with an error exactly when the specification is
    not empty and its first token that does not resolve offends in the way
    the error reports: a range token that does not split into two parts
    (InvalidRangeFormat), a single token or a range endpoint that [Atoi]
    rejects (InvalidPortNumber), a range whose start is greater than its
    end (InvalidRangeOrder).  The error holds the token, the rejected part
    or the two endpoints, and no port list is returned with it. *)
Theorem C8_resolution_errors :
  forall (s : string) (e : PortError),
  ((exists fuel, parsePortRange fuel s = Some ([], Some e)) <-> fails_with s e)
  /\ (forall fuel ports,
        parsePortRange fuel s = Some (ports, Some e) -> ports = [])
  /\ (forall t, offends t e ->
        (kind_of e = InvalidRangeFormat <-> range_format_defect t)
        /\ (kind_of e = InvalidPortNumber <-> port_number_defect t)
        /\ (kind_of e = InvalidRangeOrder <-> range_order_defect t)).
Proof.
  intros s e. split; [split|split].
  - intros [fuel H]. unfold parsePortRange in H.
    destruct (String.eqb_spec s EmptyString); [discriminate|].
    split; [assumption|].
    destruct (parse_tokens_error _ _ _ _ _ H) as (_ & pre & t & post & H1).
    exists pre, t, post. exact H1.
  - apply fails_with_parse.
  - intros fuel ports H. unfold parsePortRange in H.
    destruct (String.eqb s EmptyString); [discriminate|].
    now destruct (parse_tokens_error _ _ _ _ _ H).
  - intros t Ht. now apply offends_kind.
Qed.

Lemma C8_witness :
  fails_with "22,200-100" (ErrRangeOrder 200 100)
  /\ fails_with "80,1-2-3" (ErrRangeFormat "1-2-3")
  /\ fails_with "22-abc" (ErrEndPort "abc")
  /\ fails_with "abc" (ErrPort "abc")
  /\ Error (ErrRangeOrder 200 100)
     = "porta inicial maior que porta final: 200 > 100".
Proof.
  split; [|split; [|split; [|split]]].
  - apply (proj1 (C8_resolution_errors "22,200-100" (ErrRangeOrder 200 100))).
    exists O. reflexivity.
  - apply (proj1 (C8_resolution_errors "80,1-2-3" (ErrRangeFormat "1-2-3"))).
    exists O. reflexivity.
  - apply (proj1 (C8_resolution_errors "22-abc" (ErrEndPort "abc"))).
    exists O. reflexivity.
  - apply (proj1 (C8_resolution_errors "abc" (ErrPort "abc"))).
    exists O. reflexivity.
  - reflexivity.
Defined.

(** C9, as stated, fails: the text of a negative integer is taken for a
    range (its sign is the range separator) and rejected. *)
Lemma C9_counterexample :
  format_d (-1) = "-1"
  /\ parsePortRange 0 "-1" = Some ([], Some (ErrStartPort EmptyString)).
Proof. split; reflexivity. Qed.

(** C9, amended. The resolver checks no bound on the magnitude of a port:
    the decimal text of every integer from 0 to the largest [int], inside
    the TCP port range or not, resolves to that integer.  The text of a
    negative integer is rejected as an invalid port number. *)
Theorem C9_no_bound_on_magnitude :
  forall (n : Z) (fuel : nat),
  (0 <= n <= max_int ->
     parsePortRange fuel (format_d n) = Some ([n], None))
  /\ (n < 0 ->
     parsePortRange fuel (format_d n)
     = Some ([], Some (ErrStartPort EmptyString))).
Proof.
  intros n fuel. split; intros Hn.
  - change (format_d n) with (spec_text [Single n]).
    rewrite parsePortRange_valid; auto.
    repeat constructor. simpl. lia.
  - destruct (format_d_negative n Hn) as (ds & E & Hd). rewrite E.
    unfold parsePortRange. cbn [String.eqb].
    assert (Hc : Contains ds "," = false) by now apply all_digits_Contains.
    assert (Hm : Contains ds "-" = false) by now apply all_digits_Contains.
    replace (Split (String "-" ds) ",") with [String "-" ds]
      by (simpl; now rewrite (Split_plain _ _ Hc)).
    cbn [parse_tokens]. cbv zeta.
    assert (Ht : TrimSpace (String "-" ds) = String "-" ds).
    { apply TrimSpace_first_plain; [reflexivity|].
      simpl string_rev.
      destruct (string_rev ds) eqn:Er; [reflexivity|].
      simpl. apply is_digit_plain.
      pose proof (all_digits_rev ds) as Hr. rewrite Er, Hd in Hr.
      simpl in Hr. apply andb_true_iff in Hr. tauto. }
    rewrite Ht. cbn [Contains]. rewrite Ascii.eqb_refl. cbn [orb].
    change (Split (String "-" ds) "-") with (EmptyString :: Split ds "-").
    rewrite (Split_plain _ _ Hm). reflexivity.
Qed.

Lemma C9_witness :
  0 <= 70000 <= max_int
  /\ format_d 70000 = "70000"
  /\ parsePortRange 0 "70000" = Some ([70000], None)
  /\ parsePortRange 0 "0" = Some ([0], None).
Proof.
  assert (H : 0 <= 70000 <= max_int) by (unfold max_int; lia).
  assert (H0 : 0 <= 0 <= max_int) by (unfold max_int; lia).
  split; [exact H|]. split; [reflexivity|]. split.
  - exact (proj1 (C9_no_bound_on_magnitude 70000 0) H).
  - exact (proj1 (C9_no_bound_on_magnitude 0 0) H0).
Defined.

(** C10. Each comma-separated token is stripped of leading and trailing
    white space before it is interpreted: a specification with white space
    around its tokens resolves as the specification without it does. *)
Theorem C10_white_space_around_tokens :
  forall (ps : list Padded) (fuel : nat),
  Forall well_padded ps ->
  Join (map tok ps) "," <> EmptyString ->
  parsePortRange fuel (Join (map padded_text ps) ",")
  = parsePortRange fuel (Join (map tok ps) ",").
Proof. intros ps fuel Hp Hne. now apply parsePortRange_padded. Qed.

Lemma C10_witness :
  Forall well_padded padded_22_80
  /\ Join (map tok padded_22_80) "," <> EmptyString
  /\ Join (map padded_text padded_22_80) "," = "22, 80"
  /\ parsePortRange 0 "22, 80" = parsePortRange 0 "22,80"
  /\ parsePortRange 0 "22,80" = Some ([22; 80], None).
Proof.
  assert (Hp : Forall well_padded padded_22_80).
  { repeat constructor; simpl; apply white_space. }
  assert (Hne : Join (map tok padded_22_80) "," <> EmptyString)
    by discriminate.
  split; [exact Hp|]. split; [exact Hne|]. split; [reflexivity|].
  split; [|reflexivity].
  exact (C10_white_space_around_tokens padded_22_80 0 Hp Hne).
Defined.

(* ================================================================== *)
(** * Properties of the probe *)

(** C4. [scanPort] reports the port it was given; a connection attempt
    that succeeds is classified open, one that fails by a timeout is
    classified filtered, one that fails otherwise is classified closed;
    and [scanPort] returns a result with one of these three states in every
    case, with no error for the caller. *)
Theorem C4_scanPort_classifies :
  forall (net : Network) (host : string) (port : Z) (timeout : Duration)
         (conn : option Conn) (err : option DialError),
  net (address host port) timeout = (conn, err) ->
  Port (scanPort net host port timeout) = port
  /\ (conn <> None -> err = None ->
      State (scanPort net host port timeout) = "open")
  /\ (err = Some (NetError true) ->
      State (scanPort net host port timeout) = "filtered")
  /\ (err <> None -> err <> Some (NetError true) ->
      State (scanPort net host port timeout) = "closed")
  /\ In (State (scanPort net host port timeout))
       ["open"; "closed"; "filtered"].
Proof.
  intros net host port timeout conn err H.
  split; [apply scanPort_Port|].
  destruct err as [e|].
  - unfold scanPort. rewrite (scanPort_failed _ _ _ _ _ _ H). simpl.
    repeat split.
    + discriminate.
    + intros E. inversion E. reflexivity.
    + intros _ Hn. destruct e as [[|]|]; congruence.
    + destruct e as [[|]|]; simpl; auto.
  - destruct conn as [c|].
    + rewrite (scanPort_connected _ _ _ _ _ H). simpl.
      repeat split; auto; try discriminate. congruence.
    + unfold scanPort, scanPort_trace. cbv zeta. rewrite H. simpl.
      repeat split; auto; try discriminate; congruence.
Qed.

Lemma C4_witness :
  net_drop (address "h" 81) defaultTimeout
  = (None, Some (NetError true))
  /\ State (scanPort net_drop "h" 81 defaultTimeout) = "filtered"
  /\ State (scanPort net_8000 "h" 8000 defaultTimeout) = "open"
  /\ State (scanPort net_8000 "h" 8001 defaultTimeout) = "closed".
Proof.
  split; [reflexivity|]. split; [|split].
  - exact (proj1 (proj2 (proj2
      (C4_scanPort_classifies net_drop "h" 81 defaultTimeout None
         (Some (NetError true)) eq_refl))) eq_refl).
  - refine (proj1 (proj2
      (C4_scanPort_classifies net_8000 "h" 8000 defaultTimeout
         (Some silent_conn) None eq_refl)) _ eq_refl).
    discriminate.
  - refine (proj1 (proj2 (proj2 (proj2
      (C4_scanPort_classifies net_8000 "h" 8001 defaultTimeout
         None (Some (NetError false)) eq_refl)))) _ _); discriminate.
Defined.




(* ================================================================== *)
(** * Properties of the scheduler and the aggregator *)

(** C1. For a semaphore of capacity at least one and any list of ports,
    the scan completes: some schedule reaches the point past [<-done], no
    schedule is longer than [steps_left] of the initial state, no step
    panics, and a state in which the scan is not complete has a step.
    When the scan is complete the collector has received exactly one
    result for each submitted port, the result of its probe, and no
    other; and by then every port has been submitted, every goroutine has
    ended and the collector has left its loop. *)
Theorem C1_join_completeness :
  forall (cfg : Scan),
  (1 <= threads cfg)%nat ->
  (exists sched s, exec cfg sched init = Next s /\ main_pc s = MJoined)
  /\ forall sched s, exec cfg sched init = Next s ->
       (length sched + steps_left cfg s <= steps_left cfg init)%nat
       /\ (forall t, step cfg t s <> Panic)
       /\ (main_pc s <> MJoined -> exists t s', step cfg t s = Next s')
       /\ (main_pc s = MJoined ->
             Permutation (accepted s) (expected cfg)
             /\ length (accepted s) = length (ports cfg)
             /\ length (workers s) = length (ports cfg)
             /\ (forall j w, nth_error (workers s) j = Some w -> pc w = WExit)
             /\ collector s = CExit).
Proof.
  intros cfg Hthr. split.
  - destruct (run_completes cfg Hthr (steps_left cfg init) init
                (init_Control cfg) (le_n _)) as [He Hj].
    eauto.
  - intros sched s He.
    destruct (reachable_invariant _ _ _ He) as [Hc Hd].
    split; [|split; [|split]].
    + apply exec_bounded; [apply init_Control | exact He].
    + intros t. now apply step_no_panic.
    + intros Hnj. destruct (progress cfg Hthr s Hc Hnj) as (t & s' & _ & Hs).
      eauto.
    + intros Hj. pose proof (joined_accepted _ _ Hc Hd Hj) as Hp.
      pose proof (ctl_main _ _ Hc) as Hm. rewrite Hj in Hm.
      destruct Hm as [Hlen Hwg].
      repeat split; auto.
      * rewrite (Permutation_length Hp). unfold expected.
        apply probes_from_length.
      * now apply (all_exited cfg).
      * now apply (joined_collector cfg).
Qed.

Lemma C1_witness :
  (1 <= threads scan_8000)%nat
  /\ exists sched s,
       exec scan_8000 sched init = Next s
       /\ main_pc s = MJoined
       /\ length (accepted s) = 3%nat.
Proof.
  split; [apply le_n|].
  destruct (C1_join_completeness scan_8000 (le_n 1))
    as [[sched [s [He Hj]]] Hall].
  exists sched, s. split; [exact He|]. split; [exact Hj|].
  exact (proj1 (proj2 (proj2 (proj2 (proj2 (Hall sched s He))) Hj))).
Defined.






(** C5, as stated, fails: port 8000 is not in the well-known table, so the
    open port is reported with the service "unknown", and no report of
    [main] names it "HTTP". *)
Lemma C5_counterexample :
  commonPorts 8000 = None
  /\ scan_yields (fun _ => net_8000) "h" "7999-8001" 100 500
       [ {| Port := 8000; State := "open"; Service := "unknown" |} ] 3
  /\ ~ scan_yields (fun _ => net_8000) "h" "7999-8001" 100 500
         [ {| Port := 8000; State := "open"; Service := "HTTP" |} ] 3.
Proof.
  split; [reflexivity|]. split.
  { apply (main_scan_yields 40). vm_compute. reflexivity. }
  intros (fuel & parsed & sched & s & Hp & He & Hj & Hs & _).
  apply parse_7999_8001 in Hp. subst parsed.
  pose proof (scan_7999_8001 (fun _ => net_8000) "h" _ _
                (fun _ => silent_conn) _ _ _
                (fun _ _ => eq_refl) (fun _ _ => eq_refl) (fun _ _ => eq_refl)
                He Hj Hs) as E.
  simpl in E. discriminate E.
Qed.

(** C5, amended. Scanning "7999-8001" on a host where port 8000 accepts
    connections and the other two refuse yields one result, for port 8000,
    open, and the count of scanned ports 3.  Port 8000 is not in the
    well-known table: its service is "custom-service" when the banner read
    returns bytes, and "unknown" when the read returns an error or the
    deadline cannot be set, as for an HTTP server that sends nothing before
    a request.  With at least one thread the scan does yield a report. *)
Theorem C5_scan_7999_8001 :
  forall (world : nat -> Network) (host : string) (c : nat) (ms : Z)
         (conn : nat -> Conn),
  (forall i t, world i (address host 8000) t = (Some (conn i), None)) ->
  (forall i t, world i (address host 7999) t = (None, Some (NetError false))) ->
  (forall i t, world i (address host 8001) t = (None, Some (NetError false))) ->
  (forall out count,
     scan_yields world host "7999-8001" c ms out count ->
     count = 3%nat
     /\ out = [ {| Port := 8000; State := "open";
                   Service :=
                     if SetReadDeadline (conn 1%nat) (200 * Millisecond)
                        || snd (Read (conn 1%nat) 1024)
                     then "unknown" else "custom-service" |} ])
  /\ ((1 <= c)%nat ->
      exists out count, scan_yields world host "7999-8001" c ms out count).
Proof.
  intros world host c ms conn H8000 H7999 H8001. split.
  - intros out count (fuel & parsed & sched & s & Hp & He & Hj & Hs & Hc).
    apply parse_7999_8001 in Hp. subst parsed. split; [exact Hc|].
    eapply scan_7999_8001; eauto.
  - intros Hc. apply (scan_yields_exists _ _ _ _ _ 4 [7999; 8000; 8001] Hc).
    reflexivity.
Qed.

Lemma C5_witness :
  (forall i t, (fun _ : nat => net_8000) i (address "h" 8000) t
               = (Some silent_conn, None))
  /\ (forall i t, (fun _ : nat => net_8000) i (address "h" 7999) t
                  = (None, Some (NetError false)))
  /\ (forall i t, (fun _ : nat => net_8000) i (address "h" 8001) t
                  = (None, Some (NetError false)))
  /\ (forall out count,
        scan_yields (fun _ => net_8000) "h" "7999-8001" 100 500 out count ->
        count = 3%nat
        /\ out = [ {| Port := 8000; State := "open"; Service := "unknown" |} ])
  /\ exists out count,
       scan_yields (fun _ => net_8000) "h" "7999-8001" 100 500 out count.
Proof.
  split; [intros; reflexivity|].
  split; [intros; reflexivity|].
  split; [intros; reflexivity|].
  pose proof (C5_scan_7999_8001 (fun _ => net_8000) "h" 100 500
                (fun _ => silent_conn)
                (fun _ _ => eq_refl) (fun _ _ => eq_refl) (fun _ _ => eq_refl))
    as [H1 H2].
  split; [exact H1|]. apply H2. repeat constructor.
Defined.

(* ================================================================== *)
(** * More on the port-set resolver *)

Lemma Atoi_no_minus :
  forall s z, Atoi s = Some z -> Contains s "-" = false -> 0 <= z.
Proof.
  intros [|c rest] z H Hc; [discriminate|].
  simpl in Hc. apply orb_false_iff in Hc. destruct Hc as [Hc _].
  unfold Atoi in H. rewrite Hc in H. cbv zeta in H.
  destruct (if (false || Ascii.eqb c "+")%bool then rest else String c rest)
    as [|d ds]; [discriminate|].
  destruct (atoi_digits (String d ds) 0) as [n|] eqn:E; [|discriminate].
  apply atoi_digits_nonneg in E; [|lia].
  destruct ((min_int <=? n) && (n <=? max_int)); [|discriminate].
  inversion H; subst. exact E.
Qed.

Lemma Split_parts_no_sep :
  forall s sep x, In x (Split s sep) -> Contains x sep = false.
Proof.
  induction s as [|c s IH]; intros sep x H; simpl in H.
  - destruct H as [<-|[]]. reflexivity.
  - destruct (Ascii.eqb c sep) eqn:E.
    + destruct H as [<-|H]; [reflexivity | now apply IH].
    + pose proof (IH sep) as IH'.
      destruct (Split s sep) as [|t ts].
      * destruct H as [<-|[]]. simpl. now rewrite E.
      * destruct H as [<-|H].
        -- simpl. rewrite E. apply IH'. now left.
        -- apply IH'. now right.
Qed.

Lemma In_Zrange : forall a b x, In x (Zrange a b) <-> a <= x <= b.
Proof.
  intros a b x. unfold Zrange. rewrite in_map_iff. split.
  - intros (k & <- & Hk). apply in_seq in Hk. lia.
  - intros H. exists (Z.to_nat (x - a)). split; [lia|].
    apply in_seq. lia.
Qed.

(** What a token that resolves contributes: at least one port, and ports
    that are not negative and fit an [int]. *)
Lemma resolves_ports :
  forall t l, resolves t l ->
  l <> [] /\ Forall (fun p => 0 <= p <= max_int) l.
Proof.
  intros t l H.
  destruct H as [t p Hc Ha|t p0 p1 a b Hc Hs Ha Hb Hab Hmax].
  - split; [discriminate|]. constructor; [|constructor].
    pose proof (Atoi_range _ _ Ha). pose proof (Atoi_no_minus _ _ Ha Hc). lia.
  - split.
    + rewrite Zrange_cons by assumption. discriminate.
    + assert (Hp0 : Contains p0 "-" = false)
        by (apply (Split_parts_no_sep t); rewrite Hs; now left).
      pose proof (Atoi_no_minus _ _ Ha Hp0).
      apply Forall_forall. intros x Hx. apply In_Zrange in Hx. lia.
Qed.

(** A loop that is left has appended the range. *)
Lemma range_loop_result :
  forall fuel start end_ ports r,
  min_int <= start -> end_ <= max_int ->
  range_loop fuel start end_ ports = Some r ->
  r = (ports ++ Zrange start end_)%list
  /\ (start <= end_ -> end_ < max_int).
Proof.
  intros fuel start end_ ports r Hs He H.
  destruct (Z.eq_dec end_ max_int) as [->|Hne].
  - destruct (Z_le_gt_dec start max_int) as [Hle|Hgt].
    + rewrite range_loop_max_int in H by assumption. discriminate.
    + split; [|lia]. destruct fuel; [discriminate|]. simpl in H.
      replace (start <=? max_int) with false in H
        by (symmetry; apply Z.leb_gt; lia).
      inversion H. rewrite Zrange_empty by lia. now rewrite app_nil_r.
  - split; [|lia]. revert start ports Hs H.
    induction fuel as [|f IH]; intros start ports Hs H; [discriminate|].
    simpl in H. destruct (start <=? end_) eqn:E.
    + apply Z.leb_le in E. rewrite wrap_int_id in H by lia.
      apply IH in H; [|lia]. subst r.
      rewrite (Zrange_cons start end_) by assumption.
      now rewrite <- app_assoc.
    + apply Z.leb_gt in E. inversion H.
      rewrite Zrange_empty by lia. now rewrite app_nil_r.
Qed.

Lemma parse_tokens_success :
  forall fuel toks ports0 l,
  parse_tokens fuel toks ports0 = Some (l, None) ->
  exists chunks,
    Forall2 resolves (map TrimSpace toks) chunks
    /\ l = (ports0 ++ concat chunks)%list.
Proof.
  intros fuel. induction toks as [|r0 toks IH]; intros ports0 l H.
  - simpl in H. inversion H. exists []. split; [constructor|].
    simpl. now rewrite app_nil_r.
  - cbn [parse_tokens] in H. cbv zeta in H. cbn [map].
    set (r := TrimSpace r0) in *.
    destruct (Contains r "-") eqn:Ec.
    + destruct (Split r "-") as [|p0 [|p1 [|p2 ps]]] eqn:Es;
        try discriminate.
      destruct (Atoi p0) as [a|] eqn:Ea; [|discriminate].
      destruct (Atoi p1) as [b|] eqn:Eb; [|discriminate].
      destruct (a >? b) eqn:Eo; [discriminate|].
      rewrite Z.gtb_ltb in Eo. apply Z.ltb_ge in Eo.
      destruct (range_loop fuel a b ports0) as [ports1|] eqn:El;
        [|discriminate].
      pose proof (Atoi_range _ _ Ea) as Ra.
      pose proof (Atoi_range _ _ Eb) as Rb.
      destruct (range_loop_result _ _ _ _ _ (proj1 Ra) (proj2 Rb) El)
        as [-> Hmax].
      destruct (IH _ _ H) as (chunks & Hf & ->).
      exists (Zrange a b :: chunks). split.
      * constructor; [|exact Hf]. eapply res_range; eauto.
      * simpl. now rewrite app_assoc.
    + destruct (Atoi r) as [p|] eqn:Ea; [|discriminate].
      destruct (IH _ _ H) as (chunks & Hf & ->).
      exists ([p] :: chunks). split.
      * constructor; [|exact Hf]. now apply res_single.
      * simpl. now rewrite <- app_assoc.
Qed.

Lemma parse_tokens_resolved :
  forall toks chunks,
  Forall2 resolves (map TrimSpace toks) chunks ->
  exists fuel0, forall fuel, (fuel0 <= fuel)%nat -> forall ports0,
    parse_tokens fuel toks ports0 = Some ((ports0 ++ concat chunks)%list, None).
Proof.
  induction toks as [|t toks IH]; intros chunks H; simpl in H.
  - inversion H; subst. exists O. intros fuel _ ports0. simpl.
    now rewrite app_nil_r.
  - inversion H as [|? c ? cs Hr Hrest]; subst.
    destruct (IH _ Hrest) as [f0 Hf0].
    inversion Hr as [? p Hc Ha|? p0 p1 a b Hc Hs Ha Hb Hab Hmax]; subst.
    + exists f0. intros fuel Hf ports0. cbn [parse_tokens]. cbv zeta.
      rewrite Hc, Ha, Hf0 by assumption. simpl. now rewrite <- app_assoc.
    + exists (Nat.max f0 (Z.to_nat (b - a + 2))). intros fuel Hf ports0.
      cbn [parse_tokens]. cbv zeta. rewrite Hc, Hs, Ha, Hb.
      replace (a >? b) with false
        by (symmetry; rewrite Z.gtb_ltb; apply Z.ltb_ge; lia).
      pose proof (Atoi_range _ _ Ha) as Ra.
      rewrite (range_loop_spec (Z.to_nat (b - a + 1))) by lia.
      rewrite Hf0 by lia. simpl. now rewrite app_assoc.
Qed.

(** X1. Resolution succeeds exactly when the specification is empty, with
    no port, or every one of its tokens resolves, with the ports of the
    tokens one after the other in the order of the tokens. *)
Theorem X1_resolution_succeeds :
  forall (s : string) (l : list Z),
  (exists fuel, parsePortRange fuel s = Some (l, None))
  <-> (s = EmptyString /\ l = [])
      \/ (s <> EmptyString
          /\ exists chunks,
               Forall2 resolves (tokens_of s) chunks /\ l = concat chunks).
Proof.
  intros s l. split.
  - intros [fuel H]. unfold parsePortRange in H.
    destruct (String.eqb_spec s EmptyString) as [->|Hne].
    + left. inversion H. auto.
    + right. split; [assumption|].
      destruct (parse_tokens_success _ _ _ _ H) as (chunks & Hf & ->).
      exists chunks. auto.
  - intros [[-> ->]|(Hne & chunks & Hf & ->)].
    + exists O. reflexivity.
    + destruct (parse_tokens_resolved _ _ Hf) as [f0 Hf0].
      exists f0. rewrite parsePortRange_not_empty by assumption.
      now rewrite Hf0.
Qed.

Lemma tokens_of_not_nil : forall s, tokens_of s <> [].
Proof.
  intros s H. unfold tokens_of in H. apply map_eq_nil in H.
  exact (Split_not_nil _ _ H).
Qed.

Lemma resolved_not_nil :
  forall toks chunks, toks <> [] -> Forall2 resolves toks chunks ->
  concat chunks <> [].
Proof.
  intros toks chunks Hne H. destruct H as [|t c ts cs Hr _]; [congruence|].
  destruct (resolves_ports _ _ Hr) as [Hc _].
  simpl. destruct c; [congruence | discriminate].
Qed.

(** X2. A specification that resolves gives no port only when it is the
    empty string; so [main], which scans 1 to 1024 when it got no port,
    scans these 1024 ports exactly for the empty specification and scans
    the resolved ports, at least one, for any other. *)
Theorem X2_default_ports :
  forall (fuel : nat) (s : string) (parsed : list Z),
  parsePortRange fuel s = Some (parsed, None) ->
  (s = EmptyString ->
     default_ports parsed = map Z.of_nat (seq 1 1024)
     /\ length (default_ports parsed) = 1024%nat)
  /\ (s <> EmptyString -> parsed <> [] /\ default_ports parsed = parsed).
Proof.
  intros fuel s parsed H. split.
  - intros ->. inversion H. split; reflexivity.
  - intros Hne. unfold parsePortRange in H.
    destruct (String.eqb_spec s EmptyString); [congruence|].
    destruct (parse_tokens_success _ _ _ _ H) as (chunks & Hf & ->).
    assert (Hn : concat chunks <> []).
    { eapply resolved_not_nil; [|exact Hf].
      intros E. apply map_eq_nil in E. exact (Split_not_nil _ _ E). }
    split; [exact Hn|]. simpl. destruct (concat chunks); [congruence|].
    reflexivity.
Qed.

Lemma X2_witness :
  parsePortRange 0 "22,80" = Some ([22; 80], None)
  /\ [22; 80] <> []
  /\ default_ports [22; 80] = [22; 80]
  /\ length (default_ports []) = 1024%nat.
Proof.
  split; [reflexivity|].
  pose proof (proj2 (X2_default_ports 0 "22,80" [22; 80] eq_refl)) as H.
  assert (Hne : "22,80" <> EmptyString) by discriminate.
  split; [exact (proj1 (H Hne))|]. split; [exact (proj2 (H Hne))|].
  exact (proj2 (proj1 (X2_default_ports 0 EmptyString [] eq_refl) eq_refl)).
Defined.

(** X3. No resolved port is negative or beyond the largest [int]: a minus
    sign never reaches [Atoi], since a token with a hyphen is split on
    it. *)
Theorem X3_ports_not_negative :
  forall (fuel : nat) (s : string) (l : list Z),
  parsePortRange fuel s = Some (l, None) ->
  Forall (fun p => 0 <= p <= max_int) l.
Proof.
  intros fuel s l H. unfold parsePortRange in H.
  destruct (String.eqb s EmptyString).
  - inversion H. constructor.
  - destruct (parse_tokens_success _ _ _ _ H) as (chunks & Hf & ->).
    simpl. clear H. induction Hf as [|t c ts cs Hr _ IH]; simpl.
    + constructor.
    + apply Forall_app. split; [|exact IH].
      exact (proj2 (resolves_ports _ _ Hr)).
Qed.

Lemma X3_witness :
  parsePortRange 4 "+7,0-2" = Some ([7; 0; 1; 2], None)
  /\ Forall (fun p => 0 <= p <= max_int) [7; 0; 1; 2].
Proof.
  split; [reflexivity|].
  exact (X3_ports_not_negative 4 "+7,0-2" [7; 0; 1; 2] eq_refl).
Defined.

(** X4. A range that ends at the largest [int] is never resolved: the loop
    over the range does not end, as [port++] wraps around below the end. *)
Theorem X4_range_to_max_int :
  forall (a : Z) (fuel : nat),
  0 <= a <= max_int ->
  parsePortRange fuel (format_d a ++ String "-" (format_d max_int)) = None.
Proof.
  intros a fuel Ha.
  assert (Hm : 0 <= max_int) by (unfold max_int; lia).
  destruct (format_d_token a) as (Ha1 & _ & Ha3 & Ha4); [lia|].
  destruct (format_d_token max_int Hm) as (_ & Hb2 & Hb3 & Hb4).
  assert (Hb : Atoi (format_d max_int) = Some max_int)
    by (apply Atoi_format_d; lia).
  revert Hb2 Hb3 Hb4 Hb. generalize (format_d max_int) as m.
  intros m Hb2 Hb3 Hb4 Hb.
  set (t := format_d a ++ String "-" m).
  assert (Hne : t <> EmptyString).
  { unfold t. destruct (format_d a); discriminate. }
  assert (Hcomma : Contains t "," = false).
  { unfold t. rewrite Contains_app, Ha4. simpl. exact Hb4. }
  assert (Htrim : TrimSpace t = t).
  { apply TrimSpace_first_plain.
    - unfold t. now apply first_plain_app.
    - unfold t. rewrite string_rev_app. simpl string_rev.
      rewrite sapp_assoc. now apply first_plain_app. }
  rewrite parsePortRange_not_empty by assumption.
  rewrite (Split_plain _ _ Hcomma). cbn [parse_tokens]. cbv zeta.
  rewrite Htrim. unfold t at 1. rewrite Contains_app. simpl Contains.
  rewrite orb_true_r. unfold t.
  rewrite Split_app_sep, (Split_plain _ _ Hb3) by assumption.
  rewrite Atoi_format_d, Hb by lia.
  replace (a >? max_int) with false
    by (symmetry; rewrite Z.gtb_ltb; apply Z.ltb_ge; lia).
  rewrite range_loop_max_int by lia. reflexivity.
Qed.

Lemma X4_witness :
  0 <= 1 <= max_int
  /\ format_d 1 ++ String "-" (format_d max_int) = "1-9223372036854775807"
  /\ parsePortRange 1000 "1-9223372036854775807" = None.
Proof.
  assert (H : 0 <= 1 <= max_int) by (unfold max_int; lia).
  split; [exact H|]. split; [reflexivity|].
  exact (X4_range_to_max_int 1 1000 H).
Defined.

(* ================================================================== *)
(** * More on the probe *)


(** X6. The service of a result: "unknown" for every port that is not
    open; for an open port the name of the table when the port is in it,
    and "unknown" or "custom-service" when it is not. *)
Theorem X6_service_values :
  forall (net : Network) (host : string) (port : Z) (timeout : Duration),
  let r := scanPort net host port timeout in
  (State r <> "open" -> Service r = "unknown")
  /\ (State r = "open" ->
      match commonPorts port with
      | Some name => Service r = name
      | None => Service r = "unknown" \/ Service r = "custom-service"
      end).
Proof.
  intros net host port timeout r. subst r.
  unfold scanPort, scanPort_trace. cbv zeta.
  destruct (net (address host port) timeout) as [[conn|] [e|]].
  - destruct e as [[|]|]; cbn; split; auto; discriminate.
  - destruct (commonPorts port) eqn:Ec.
    + cbn. split; [congruence | reflexivity].
    + destruct (SetReadDeadline conn (200 * Millisecond)).
      * cbn. split; [reflexivity | intros _; left; reflexivity].
      * destruct (snd (Read conn 1024)); cbn.
        -- split; [reflexivity | intros _; left; reflexivity].
        -- split; [congruence | intros _; right; reflexivity].
  - destruct e as [[|]|]; cbn; split; auto; discriminate.
  - cbn. split; auto; discriminate.
Qed.

(* ================================================================== *)
(** * Liveness of the host *)

(** X7. On a network whose dials give a connection exactly when they give
    no error, [isHostAlive] does not panic and reports the host alive
    exactly when port 80 connects, or port 443 does, or [ping] succeeds.
    Port 443 is dialled only after port 80 failed and [ping] is run only
    after both failed; the connection that was opened is closed. *)
Theorem X7_isHostAlive :
  forall (net : Network) (ping : string -> bool) (host : string)
         (timeout : Duration),
  dial_contract net ->
  isHostAlive_trace net ping host timeout
  = if connects net (address host 80) timeout
    then (Some true, [HDial (address host 80) timeout; HClose])
    else if connects net (address host 443) timeout
    then (Some true,
          [HDial (address host 80) timeout; HDial (address host 443) timeout;
           HClose])
    else (Some (ping host),
          [HDial (address host 80) timeout; HDial (address host 443) timeout;
           HPing host]).
Proof.
  intros net ping host timeout Hc.
  unfold isHostAlive_trace, connects. cbn [alive_loop]. cbv zeta.
  pose proof (Hc (address host 80) timeout) as H80.
  pose proof (Hc (address host 443) timeout) as H443.
  destruct (net (address host 80) timeout) as [[c|] [e|]];
    try contradiction; [reflexivity|].
  destruct (net (address host 443) timeout) as [[c|] [e'|]];
    try contradiction; reflexivity.
Qed.

Lemma X7_witness :
  dial_contract net_443
  /\ isHostAlive_trace net_443 (fun _ => false) "h" defaultTimeout
     = (Some true, [HDial "h:80" defaultTimeout; HDial "h:443" defaultTimeout;
                    HClose])
  /\ isHostAlive net_drop (fun _ => false) "h" defaultTimeout = Some false.
Proof.
  assert (H : dial_contract net_443).
  { intros a t. unfold net_443. destruct (String.eqb a "h:443"); exact I. }
  assert (H' : dial_contract net_drop) by (intros a t; exact I).
  split; [exact H|]. split.
  - exact (X7_isHostAlive net_443 (fun _ => false) "h" defaultTimeout H).
  - exact (f_equal fst
             (X7_isHostAlive net_drop (fun _ => false) "h" defaultTimeout H')).
Defined.

(* ================================================================== *)
(** * Resolution of the host *)

Lemma To4_length : forall ip p4, To4 ip = Some p4 -> length p4 = 4%nat.
Proof.
  intros ip p4 H. unfold To4 in H.
  destruct (length ip =? 4)%nat eqn:E4.
  - inversion H; subst. now apply Nat.eqb_eq.
  - destruct ((length ip =? 16)%nat && isZeros (firstn 10 ip)
              && (nth 10 ip 0 =? 255)%N && (nth 11 ip 0 =? 255)%N) eqn:E;
      [|discriminate].
    injection H as <-. rewrite !andb_true_iff in E.
    destruct E as [[[E _] _] _]. apply Nat.eqb_eq in E.
    change (length (skipn 12 ip) = 4%nat). rewrite length_skipn. lia.
Qed.

Lemma IP_String_ipv4 :
  forall ip_text p4, length p4 = 4%nat -> IP_String ip_text p4 = dotted p4.
Proof.
  intros ip_text p4 H. unfold IP_String, To4.
  destruct p4 as [|a p4]; [discriminate|].
  rewrite H. reflexivity.
Qed.

Lemma dotted_has_dot :
  forall p4, length p4 = 4%nat -> Contains (dotted p4) "." = true.
Proof.
  intros [|a [|b [|c [|d [|e p]]]]] H; try discriminate.
  unfold dotted. cbn [map Join].
  rewrite Contains_app. simpl Contains. apply orb_true_r.
Qed.

Lemma first_To4_split :
  forall ips p4, first_To4 ips = Some p4 ->
  exists pre ip post,
    ips = (pre ++ ip :: post)%list
    /\ Forall (fun x => To4 x = None) pre /\ To4 ip = Some p4.
Proof.
  induction ips as [|ip ips IH]; intros p4 H; simpl in H; [discriminate|].
  destruct (To4 ip) as [q|] eqn:E.
  - inversion H; subst. exists [], ip, ips. auto.
  - destruct (IH _ H) as (pre & ip' & post & -> & Hp & Hi).
    exists (ip :: pre), ip', post. auto.
Qed.

Lemma first_To4_none :
  forall ips, first_To4 ips = None <-> Forall (fun x => To4 x = None) ips.
Proof.
  induction ips as [|ip ips IH]; simpl.
  - split; auto.
  - destruct (To4 ip) eqn:E.
    + split; [discriminate|]. intros H. inversion H; congruence.
    + rewrite IH. split; [now constructor | intros H; now inversion H].
Qed.

Lemma validateHost_ipv4 :
  forall lookupIP ip_text host ips p4,
  lookupIP host = (ips, None) -> first_To4 ips = Some p4 ->
  validateHost lookupIP ip_text host = (dotted p4, None)
  /\ Contains (dotted p4) "." = true.
Proof.
  intros lookupIP ip_text host ips p4 Hl H.
  unfold validateHost. rewrite Hl, H.
  destruct (first_To4_split _ _ H) as (pre & ip & post & E & Hp & Hi).
  pose proof (To4_length _ _ Hi) as Hlen.
  rewrite IP_String_ipv4 by assumption.
  split; [reflexivity | now apply dotted_has_dot].
Qed.

(** X8. [validateHost] fails exactly when the lookup fails or gives no
    address, and then returns the empty string. *)
Theorem X8_validateHost_fails :
  forall (lookupIP : string -> list IP * option string)
         (ip_text : IP -> string) (host : string),
  (snd (validateHost lookupIP ip_text host) <> None
   <-> snd (lookupIP host) <> None \/ fst (lookupIP host) = [])
  /\ (snd (validateHost lookupIP ip_text host) <> None ->
      fst (validateHost lookupIP ip_text host) = EmptyString)
  /\ (forall err, snd (lookupIP host) = Some err ->
      snd (validateHost lookupIP ip_text host) = Some (ErrLookup host err)).
Proof.
  intros lookupIP ip_text host. unfold validateHost.
  destruct (lookupIP host) as [ips [err|]]; simpl.
  - intuition (try discriminate; try congruence).
  - destruct (first_To4 ips) as [p4|] eqn:E.
    + assert (ips <> []) by (intros ->; discriminate E).
      simpl. intuition (try discriminate; try congruence).
    + destruct ips as [|ip ips]; simpl;
        intuition (try discriminate; try congruence).
Qed.

(** X9. When the lookup gives an address that [To4] accepts, [validateHost]
    returns the first such address, whatever stands before it in the list,
    in dotted form, the IPv4-mapped 16-byte form included; the text
    contains a dot.  When it gives addresses that [To4] all rejects, the
    text of the first one, if it is not an empty slice, is returned. *)
Theorem X9_validateHost_prefers_ipv4 :
  forall (lookupIP : string -> list IP * option string)
         (ip_text : IP -> string) (host : string) (ips : list IP),
  lookupIP host = (ips, None) ->
  (forall p4, first_To4 ips = Some p4 ->
     validateHost lookupIP ip_text host = (dotted p4, None)
     /\ Contains (dotted p4) "." = true
     /\ exists pre ip post,
          ips = (pre ++ ip :: post)%list
          /\ Forall (fun x => To4 x = None) pre /\ To4 ip = Some p4)
  /\ (forall ip rest, ips = ip :: rest -> ip <> [] ->
      Forall (fun x => To4 x = None) ips ->
      validateHost lookupIP ip_text host = (ip_text ip, None)).
Proof.
  intros lookupIP ip_text host ips Hl. split.
  - intros p4 H.
    destruct (validateHost_ipv4 _ ip_text _ _ _ Hl H) as [E Hd].
    split; [exact E|]. split; [exact Hd|]. now apply first_To4_split.
  - intros ip rest -> Hne H. unfold validateHost. rewrite Hl.
    rewrite (proj2 (first_To4_none _) H).
    inversion H as [|? ? Hi _]; subst.
    unfold IP_String. rewrite Hi.
    destruct ip; [congruence | reflexivity].
Qed.

Lemma X9_witness :
  lookup_v6_v4 "h"
  = ([ [0x20; 0x01; 0x0d; 0xb8; 0; 0; 0; 0; 0; 0; 0; 0; 0; 0; 0; 1];
       [192; 168; 1; 7] ]%N, None)
  /\ validateHost lookup_v6_v4 (fun _ => "2001:db8::1") "h"
     = ("192.168.1.7", None).
Proof.
  split; [reflexivity|].
  exact (proj1 (proj1 (X9_validateHost_prefers_ipv4 lookup_v6_v4
                         (fun _ => "2001:db8::1") "h" _ eq_refl)
                  [192; 168; 1; 7]%N eq_refl)).
Defined.

(** X10. The IPv4 preference of [main] leaves the address of
    [validateHost] as it is whenever that address came from an address
    [To4] accepts (its text contains a dot), with the flag on or off, and
    the answer of [net.LookupHost] plays no part in it. *)
Theorem X10_prefer_ipv4_keeps_ipv4 :
  forall (lookupIP : string -> list IP * option string)
         (ip_text : IP -> string)
         (lookupHost lookupHost' : string -> list string * option string)
         (parses_To4 : string -> bool) (useIPv4 : bool)
         (host : string) (ips : list IP) (p4 : IP),
  lookupIP host = (ips, None) ->
  first_To4 ips = Some p4 ->
  prefer_ipv4 useIPv4 lookupHost parses_To4 host
    (fst (validateHost lookupIP ip_text host))
  = dotted p4
  /\ prefer_ipv4 useIPv4 lookupHost parses_To4 host
       (fst (validateHost lookupIP ip_text host))
     = prefer_ipv4 useIPv4 lookupHost' parses_To4 host
         (fst (validateHost lookupIP ip_text host)).
Proof.
  intros lookupIP ip_text lookupHost lookupHost' parses_To4 useIPv4 host ips
    p4 Hl H.
  destruct (validateHost_ipv4 _ ip_text _ _ _ Hl H) as (E & Hdot).
  rewrite E. simpl fst. unfold prefer_ipv4. rewrite Hdot.
  rewrite andb_false_r. auto.
Qed.

Lemma X10_witness :
  lookup_v6_v4 "h"
  = ([ [0x20; 0x01; 0x0d; 0xb8; 0; 0; 0; 0; 0; 0; 0; 0; 0; 0; 0; 1];
       [192; 168; 1; 7] ]%N, None)
  /\ first_To4 (fst (lookup_v6_v4 "h")) = Some [192; 168; 1; 7]%N
  /\ prefer_ipv4 true (fun _ => (["10.0.0.1"], None)) (fun _ => true) "h"
       (fst (validateHost lookup_v6_v4 (fun _ => "2001:db8::1") "h"))
     = "192.168.1.7".
Proof.
  split; [reflexivity|]. split; [reflexivity|].
  exact (proj1 (X10_prefer_ipv4_keeps_ipv4 lookup_v6_v4
                  (fun _ => "2001:db8::1")
                  (fun _ => (["10.0.0.1"], None))
                  (fun _ => ([], Some "no such host"))
                  (fun _ => true) true "h" _ [192; 168; 1; 7]%N
                  eq_refl eq_refl)).
Defined.

(* ================================================================== *)
(** * More on the scheduler and the aggregator *)

Lemma exec_app :
  forall cfg a b s s', exec cfg a s = Next s' ->
  exec cfg (a ++ b)%list s = exec cfg b s'.
Proof.
  intros cfg. induction a as [|t a IH]; intros b s s' H;
    cbn [exec app] in *.
  - inversion H; subst. reflexivity.
  - destruct (step cfg t s) eqn:E; try discriminate. now apply IH.
Qed.

Lemma first_acquire_blocked :
  forall cfg p t, threads cfg = 0%nat ->
  step cfg t (first_acquire p) = Blocked.
Proof.
  intros cfg p [|i|] H; simpl.
  - unfold main_step. simpl. now rewrite H.
  - unfold worker_step. simpl. destruct i; reflexivity.
  - reflexivity.
Qed.

Lemma init_step_zero :
  forall cfg t s, ports cfg <> [] -> step cfg t init = Next s ->
  t = TMain /\ exists p, nth_error (ports cfg) 0 = Some p
                         /\ s = first_acquire p.
Proof.
  intros cfg [|i|] s Hp H; simpl in H.
  - split; [reflexivity|]. unfold main_step in H. simpl in H.
    destruct (ports cfg) as [|p ps]; [congruence|]. simpl in H.
    inversion H; subst. exists p. split; reflexivity.
  - unfold worker_step in H. simpl in H. destruct i; discriminate.
  - discriminate.
Qed.

(** With a semaphore of capacity zero and a port to scan, a schedule is
    empty or the one step of main to its first send on [sem]. *)
Lemma zero_threads_reachable :
  forall cfg, threads cfg = 0%nat -> ports cfg <> [] ->
  forall sched s, exec cfg sched init = Next s ->
  (sched = [] /\ s = init)
  \/ (sched = [TMain]
      /\ exists p, nth_error (ports cfg) 0 = Some p /\ s = first_acquire p).
Proof.
  intros cfg Hthr Hp [|t sched] s H; cbn [exec] in H.
  - inversion H; subst. now left.
  - right. destruct (step cfg t init) as [s1| |] eqn:E; try discriminate.
    destruct (init_step_zero _ _ _ Hp E) as [-> (p & Hn & ->)].
    destruct sched as [|t' sched]; cbn [exec] in H.
    + inversion H; subst. split; [reflexivity|]. eauto.
    + rewrite (first_acquire_blocked cfg p t' Hthr) in H. discriminate.
Qed.

Lemma default_ports_not_nil : forall l, default_ports l <> [].
Proof.
  intros [|p l]; [|discriminate].
  intros H. apply (f_equal (@length Z)) in H.
  unfold default_ports in H. rewrite length_map, length_seq in H.
  discriminate H.
Qed.

(** X11. With a semaphore of capacity zero and at least one port, main
    stops for ever at its first send on [sem], after [wg.Add(1)]: from
    there no goroutine can take a step, no goroutine was launched, no
    result is stored, and the scan is never complete. *)
Theorem X11_zero_threads_deadlock :
  forall (cfg : Scan),
  threads cfg = 0%nat -> ports cfg <> [] ->
  (forall sched s, exec cfg sched init = Next s ->
     main_pc s <> MJoined /\ workers s = [] /\ results s = []
     /\ (length sched <= 1)%nat)
  /\ (exists s, exec cfg [TMain] init = Next s /\ wg s = 1%nat
                /\ forall t, step cfg t s = Blocked).
Proof.
  intros cfg Hthr Hp. split.
  - intros sched s He.
    destruct (zero_threads_reachable cfg Hthr Hp sched s He)
      as [[-> ->]|[-> (p & _ & ->)]]; simpl;
      (split; [discriminate|]); auto.
  - destruct (ports cfg) as [|p ps] eqn:E; [congruence|].
    exists (first_acquire p). split; [|split].
    + cbn [exec step]. unfold main_step. simpl. rewrite E. reflexivity.
    + reflexivity.
    + intros t. now apply first_acquire_blocked.
Qed.

Lemma X11_witness :
  threads scan_none = 0%nat /\ ports scan_none <> []
  /\ exists s, exec scan_none [TMain] init = Next s /\ wg s = 1%nat
               /\ forall t, step scan_none t s = Blocked.
Proof.
  assert (H0 : threads scan_none = 0%nat) by reflexivity.
  assert (Hp : ports scan_none <> []) by discriminate.
  split; [exact H0|]. split; [exact Hp|].
  exact (proj2 (X11_zero_threads_deadlock scan_none H0 Hp)).
Defined.

(** X12. With zero threads [main] reports nothing, whatever the port
    specification: the list it scans is never empty, so the scan cannot
    be complete. *)
Theorem X12_zero_threads_no_report :
  forall (world : nat -> Network) (host : string) (portRange : string)
         (ms : Z) (out : list PortResult) (count : nat),
  ~ scan_yields world host portRange 0 ms out count.
Proof.
  intros world host portRange ms out count
    (fuel & parsed & sched & s & _ & He & Hj & _).
  destruct (zero_threads_reachable
              (scan_cfg world host (timeoutDuration ms) 0
                 (default_ports parsed))
              eq_refl (default_ports_not_nil parsed) sched s He)
    as [[_ ->]|[_ (p & _ & ->)]]; discriminate Hj.
Qed.

Lemma scanPort_open :
  forall net host port timeout,
  State (scanPort net host port timeout) = "open" ->
  exists conn, net (address host port) timeout = (Some conn, None).
Proof.
  intros net host port timeout H.
  destruct (net (address host port) timeout) as [conn [e|]] eqn:E.
  - unfold scanPort in H. rewrite (scanPort_failed _ _ _ _ _ _ E) in H.
    destruct e as [[|]|]; discriminate H.
  - destruct conn as [c|]; [eauto|].
    unfold scanPort, scanPort_trace in H. cbv zeta in H. rewrite E in H.
    discriminate H.
Qed.

(** X13. In every state of a scan the slice [results] holds open results
    only, each the result of the probe of a goroutine for the port at its
    place in the list, whose dial gave a connection and no error: a closed
    or filtered port is never stored. *)
Theorem X13_results_open_only :
  forall (world : nat -> Network) (host : string) (timeout : Duration)
         (c : nat) (ps : list Z) (sched : list Thread) (s : GoState)
         (r : PortResult),
  exec (scan_cfg world host timeout c ps) sched init = Next s ->
  In r (results s) ->
  State r = "open"
  /\ exists j conn,
       nth_error ps j = Some (Port r)
       /\ world j (address host (Port r)) timeout = (Some conn, None)
       /\ r = scanPort (world j) host (Port r) timeout.
Proof.
  intros world host timeout c ps sched s r He Hin.
  destruct (reachable_invariant _ _ _ He) as [_ Hd].
  assert (Hf : In r (filter is_open (map snd (accepted s)))).
  { rewrite (dat_results _ _ Hd). apply in_or_app. now left. }
  apply filter_In in Hf. destruct Hf as [Hacc Hopen].
  apply in_map_iff in Hacc. destruct Hacc as ([j r'] & Er & Hacc).
  simpl in Er. subst r'.
  destruct (dat_accepted _ _ Hd _ _ Hacc) as (p & Hp & Hr).
  cbn [scan_cfg ports probe] in Hp, Hr.
  assert (Hport : Port r = p) by (rewrite Hr; apply scanPort_Port).
  assert (Hst : State r = "open")
    by (unfold is_open in Hopen; now apply String.eqb_eq in Hopen).
  split; [exact Hst|]. rewrite Hport.
  rewrite Hr in Hst. destruct (scanPort_open _ _ _ _ Hst) as [conn Hc].
  exists j, conn. auto.
Qed.

Lemma X13_witness :
  exec scan_two (fst (run scan_two 40 init)) init
  = Next (snd (run scan_two 40 init))
  /\ In {| Port := 80; State := "open"; Service := "HTTP" |}
       (results (snd (run scan_two 40 init)))
  /\ exists j conn,
       nth_error [443; 80] j = Some 80
       /\ net_open (address "h" 80) defaultTimeout = (Some conn, None)
       /\ {| Port := 80; State := "open"; Service := "HTTP" |}
          = scanPort net_open "h" 80 defaultTimeout.
Proof.
  assert (He : exec scan_two (fst (run scan_two 40 init)) init
               = Next (snd (run scan_two 40 init)))
    by (vm_compute; reflexivity).
  assert (Hin : In {| Port := 80; State := "open"; Service := "HTTP" |}
                  (results (snd (run scan_two 40 init))))
    by (vm_compute; auto).
  split; [exact He|]. split; [exact Hin|].
  exact (proj2 (X13_results_open_only (fun _ => net_open) "h"
                  defaultTimeout 2 [443; 80] _ _ _ He Hin)).
Defined.

Lemma step_results :
  forall cfg t s s', step cfg t s = Next s' ->
  exists more, results s' = (results s ++ more)%list
               /\ Forall (fun r => is_open r = true) more
               /\ (length more <= 1)%nat.
Proof.
  intros cfg t s s' H.
  assert (Hsame : results s' = results s ->
            exists more, results s' = (results s ++ more)%list
                         /\ Forall (fun r => is_open r = true) more
                         /\ (length more <= 1)%nat).
  { intros E. exists []. rewrite app_nil_r. auto. }
  destruct t as [|i|]; simpl in H.
  - unfold main_step in H.
    destruct (main_pc s); try discriminate.
    + destruct (nth_error (ports cfg) i); inversion H; subst; now apply Hsame.
    + destruct (sem s <? threads cfg)%nat; inversion H; subst;
        now apply Hsame.
    + inversion H; subst; now apply Hsame.
    + destruct (wg s =? 0)%nat; inversion H; subst; now apply Hsame.
    + destruct (closed s); inversion H; subst; now apply Hsame.
  - unfold worker_step in H.
    destruct (nth_error (workers s) i) as [w|]; try discriminate.
    destruct (pc w); try discriminate.
    + inversion H; subst; now apply Hsame.
    + destruct (closed s); try discriminate.
      destruct (collector s); inversion H; subst; now apply Hsame.
    + destruct (sem s); inversion H; subst; now apply Hsame.
    + destruct (wg s); inversion H; subst; now apply Hsame.
  - unfold collector_step in H.
    destruct (collector s) as [|r| |]; try discriminate.
    + destruct (closed s); inversion H; subst; now apply Hsame.
    + inversion H; subst. cbn [results].
      destruct (is_open r) eqn:E; [|now apply Hsame].
      exists [r]. split; [reflexivity|]. split; [|simpl; lia].
      constructor; [exact E | constructor].
    + destruct (main_pc s); inversion H; subst; now apply Hsame.
Qed.

(** X14. The slice [results] only grows, at its end, and by open results:
    from any state, after any steps, it is what it was followed by the
    results stored since, no more than one for each step. *)
Theorem X14_results_append_only :
  forall (cfg : Scan) (sched : list Thread) (s s' : GoState),
  exec cfg sched s = Next s' ->
  exists more, results s' = (results s ++ more)%list
               /\ Forall (fun r => is_open r = true) more
               /\ (length more <= length sched)%nat.
Proof.
  intros cfg. induction sched as [|t sched IH]; intros s s' H;
    cbn [exec] in H.
  - inversion H; subst. exists []. rewrite app_nil_r. auto.
  - destruct (step cfg t s) as [s1| |] eqn:E; try discriminate.
    destruct (step_results _ _ _ _ E) as (m1 & E1 & F1 & L1).
    destruct (IH _ _ H) as (m2 & E2 & F2 & L2).
    exists (m1 ++ m2)%list. split; [|split].
    + now rewrite E2, E1, app_assoc.
    + apply Forall_app. auto.
    + rewrite length_app. simpl. lia.
Qed.

Lemma X14_witness :
  exec scan_two (fst (run scan_two 40 init)) init
  = Next (snd (run scan_two 40 init))
  /\ exists more,
       results (snd (run scan_two 40 init)) = (results init ++ more)%list
       /\ Forall (fun r => is_open r = true) more
       /\ (length more <= length (fst (run scan_two 40 init)))%nat.
Proof.
  assert (He : exec scan_two (fst (run scan_two 40 init)) init
               = Next (snd (run scan_two 40 init)))
    by (vm_compute; reflexivity).
  split; [exact He|].
  exact (X14_results_append_only scan_two _ _ _ He).
Defined.

Lemma map_firstn_nth :
  forall (A B : Type) (f : A -> B) (ws : list A) (ps : list B),
  (forall j w, nth_error ws j = Some w -> nth_error ps j = Some (f w)) ->
  map f ws = firstn (length ws) ps /\ (length ws <= length ps)%nat.
Proof.
  intros A B f. induction ws as [|w ws IH]; intros ps H.
  - split; [reflexivity | simpl; lia].
  - destruct ps as [|p ps].
    + specialize (H O w eq_refl). discriminate H.
    + pose proof (H O w eq_refl) as H0. simpl in H0. inversion H0; subst.
      destruct (IH ps) as [E L].
      { intros j w' Hj. exact (H (S j) w' Hj). }
      simpl. split; [now rewrite E | lia].
Qed.

(** X15. In every state of a scan the goroutines launched so far have, in
    the order of their launch, the ports of the head of the list as their
    argument [p], one goroutine for each place: no port is skipped, none
    is submitted twice for a place, and a goroutine keeps its port. *)
Theorem X15_launch_order :
  forall (cfg : Scan) (sched : list Thread) (s : GoState),
  exec cfg sched init = Next s ->
  map arg_p (workers s) = firstn (length (workers s)) (ports cfg)
  /\ (length (workers s) <= length (ports cfg))%nat
  /\ (main_pc s = MWait \/ main_pc s = MClose \/ main_pc s = MRecvDone
      \/ main_pc s = MJoined -> map arg_p (workers s) = ports cfg).
Proof.
  intros cfg sched s He.
  destruct (reachable_invariant _ _ _ He) as [Hc Hd].
  destruct (map_firstn_nth _ _ arg_p (workers s) (ports cfg)
              (dat_args _ _ Hd)) as [E L].
  split; [exact E|]. split; [exact L|].
  intros Hpc. rewrite E.
  assert (Hlen : length (workers s) = length (ports cfg)).
  { pose proof (ctl_main _ _ Hc) as Hm.
    destruct Hpc as [H|[H|[H|H]]]; rewrite H in Hm; tauto. }
  rewrite Hlen. apply firstn_all.
Qed.

Lemma X15_witness :
  exec scan_two (fst (run scan_two 40 init)) init
  = Next (snd (run scan_two 40 init))
  /\ map arg_p (workers (snd (run scan_two 40 init))) = [443; 80].
Proof.
  assert (He : exec scan_two (fst (run scan_two 40 init)) init
               = Next (snd (run scan_two 40 init)))
    by (vm_compute; reflexivity).
  split; [exact He|].
  apply (proj2 (proj2 (X15_launch_order scan_two _ _ He))).
  right. right. right. vm_compute. reflexivity.
Defined.

(** X16. In every state of a scan the collector has received at most one
    result from each goroutine, and it has received one from exactly the
    goroutines that are past their send on [resultsChan]. *)
Theorem X16_one_result_each :
  forall (cfg : Scan) (sched : list Thread) (s : GoState),
  exec cfg sched init = Next s ->
  NoDup (map fst (accepted s))
  /\ (forall j, In j (map fst (accepted s)) <->
                exists w, nth_error (workers s) j = Some w
                          /\ has_sent w = true)
  /\ (length (accepted s) <= length (workers s))%nat.
Proof.
  intros cfg sched s He.
  destruct (reachable_invariant _ _ _ He) as [_ Hd].
  pose proof (dat_once _ _ Hd) as Ho.
  assert (Hnd : NoDup (map fst (accepted s))).
  { apply (NoDup_count_occ Nat.eq_dec). intros j. rewrite Ho.
    destruct (sent_at (workers s) j); simpl; lia. }
  assert (Hiff : forall j, In j (map fst (accepted s)) <->
                   exists w, nth_error (workers s) j = Some w
                             /\ has_sent w = true).
  { intros j. rewrite (count_occ_In Nat.eq_dec), Ho. unfold sent_at.
    destruct (nth_error (workers s) j) as [w|].
    - destruct (has_sent w) eqn:E; simpl; split.
      + intros _. eauto.
      + intros _. lia.
      + intros H. lia.
      + intros (w' & Ew & Hw). inversion Ew; subst. congruence.
    - simpl. split; [lia|]. intros (w & Ew & _). discriminate Ew. }
  split; [exact Hnd|]. split; [exact Hiff|].
  rewrite <- (length_map fst (accepted s)).
  rewrite <- (length_seq (length (workers s)) 0).
  apply NoDup_incl_length; [exact Hnd|].
  intros j Hj. apply Hiff in Hj. destruct Hj as (w & Hw & _).
  apply in_seq. split; [lia|]. simpl. apply nth_error_Some. congruence.
Qed.

Lemma X16_witness :
  exec scan_two (fst (run scan_two 40 init)) init
  = Next (snd (run scan_two 40 init))
  /\ NoDup (map fst (accepted (snd (run scan_two 40 init)))).
Proof.
  assert (He : exec scan_two (fst (run scan_two 40 init)) init
               = Next (snd (run scan_two 40 init)))
    by (vm_compute; reflexivity).
  split; [exact He|].
  exact (proj1 (X16_one_result_each scan_two _ _ He)).
Defined.

Lemma strict_sorted_perm_eq :
  forall l1 l2 : list PortResult,
  StronglySorted (fun a b => Port a < Port b) l1 ->
  StronglySorted (fun a b => Port a < Port b) l2 ->
  Permutation l1 l2 -> l1 = l2.
Proof.
  induction l1 as [|a l1 IH]; intros l2 H1 H2 Hp.
  - apply Permutation_nil in Hp. now subst.
  - destruct l2 as [|b l2].
    + apply Permutation_sym, Permutation_nil in Hp. discriminate Hp.
    + apply StronglySorted_inv in H1. destruct H1 as [H1 Ha].
      apply StronglySorted_inv in H2. destruct H2 as [H2 Hb].
      rewrite Forall_forall in Ha, Hb.
      assert (E : a = b).
      { assert (Hin_a : In a (b :: l2))
          by (apply (Permutation_in _ Hp); now left).
        assert (Hin_b : In b (a :: l1))
          by (apply (Permutation_in _ (Permutation_sym Hp)); now left).
        destruct Hin_a as [->|Hin_a]; [reflexivity|].
        destruct Hin_b as [->|Hin_b]; [reflexivity|].
        specialize (Ha _ Hin_b). specialize (Hb _ Hin_a). lia. }
      subst b. f_equal. apply IH; auto.
      now apply Permutation_cons_inv in Hp.
Qed.

(** X17. When the ports of the list are distinct, the report of a
    complete scan is the same for every interleaving of the goroutines
    and every outcome of [sort.Slice]: the open results among the probes,
    sorted by port. *)
Theorem X17_report_determined :
  forall (world : nat -> Network) (host : string) (timeout : Duration)
         (c : nat) (ps : list Z) (sched : list Thread) (s : GoState)
         (out : list PortResult),
  NoDup ps ->
  exec (scan_cfg world host timeout c ps) sched init = Next s ->
  main_pc s = MJoined ->
  sorted_by_less (results s) out ->
  out = sort_Slice
          (filter is_open
             (map snd (expected (scan_cfg world host timeout c ps)))).
Proof.
  intros world host timeout c ps sched s out Hnd He Hj Hs.
  set (cfg := scan_cfg world host timeout c ps) in *.
  set (l := filter is_open (map snd (expected cfg))).
  destruct (joined_report _ _ _ _ He Hj Hs) as [Hperm Hsorted].
  fold l in Hperm.
  pose proof (sort_Slice_sorted l) as Hl.
  assert (Hn : NoDup (map Port l)).
  { apply NoDup_map_filter. unfold expected, cfg. cbn [scan_cfg ports].
    now rewrite probes_from_ports. }
  apply strict_sorted_perm_eq.
  - apply sorted_strict; [exact Hsorted|].
    eapply Permutation_NoDup; [|exact Hn].
    apply Permutation_sym, Permutation_map. exact Hperm.
  - apply sorted_strict; [eapply sorted_by_less_le; exact Hl|].
    eapply Permutation_NoDup; [|exact Hn].
    apply Permutation_map. exact (proj1 Hl).
  - eapply Permutation_trans; [exact Hperm | exact (proj1 Hl)].
Qed.

Lemma X17_witness :
  NoDup [443; 80]
  /\ exec scan_two (fst (run scan_two 40 init)) init
     = Next (snd (run scan_two 40 init))
  /\ sort_Slice (results (snd (run scan_two 40 init)))
     = sort_Slice (filter is_open (map snd (expected scan_two))).
Proof.
  assert (Hnd : NoDup [443; 80]).
  { constructor; [simpl; intros [H|[]]; discriminate H|].
    constructor; [simpl; tauto | constructor]. }
  assert (He : exec scan_two (fst (run scan_two 40 init)) init
               = Next (snd (run scan_two 40 init)))
    by (vm_compute; reflexivity).
  split; [exact Hnd|]. split; [exact He|].
  apply (X17_report_determined (fun _ => net_open) "h" defaultTimeout 2
           [443; 80] _ _ _ Hnd He).
  - vm_compute. reflexivity.
  - apply sort_Slice_sorted.
Defined.

Lemma firstn_S_nth :
  forall (A : Type) (l : list A) k x,
  nth_error l k = Some x -> firstn (S k) l = (firstn k l ++ [x])%list.
Proof.
  intros A. induction l as [|a l IH]; intros k x H.
  - destruct k; discriminate H.
  - destruct k as [|k].
    + simpl in H. inversion H; subst. reflexivity.
    + simpl in H. change (firstn (S (S k)) (a :: l))
        with (a :: firstn (S k) l).
      rewrite (IH _ _ H). reflexivity.
Qed.

Lemma launched_next :
  forall cfg k port,
  (k < threads cfg)%nat -> nth_error (ports cfg) k = Some port ->
  exec cfg [TMain; TMain; TMain] (launched cfg k)
  = Next (launched cfg (S k)).
Proof.
  intros cfg k port Hk Hn.
  assert (Hlt : (k <? threads cfg)%nat = true) by now apply Nat.ltb_lt.
  cbn [exec step].
  unfold main_step at 1. cbn [launched main_pc workers collector sem wg closed
                              results accepted]. rewrite Hn.
  unfold main_step at 1. cbn [main_pc workers collector sem wg closed
                              results accepted]. rewrite Hlt.
  unfold main_step at 1. cbn [main_pc workers collector sem wg closed
                              results accepted].
  unfold launched. rewrite (firstn_S_nth _ _ _ _ Hn), map_app.
  reflexivity.
Qed.

Lemma launched_reachable :
  forall cfg k,
  (k <= threads cfg)%nat -> (k <= length (ports cfg))%nat ->
  exec cfg (repeat TMain (3 * k)) init = Next (launched cfg k).
Proof.
  intros cfg. induction k as [|k IH]; intros Hk Hl.
  - reflexivity.
  - replace (3 * S k)%nat with (3 * k + 3)%nat by lia.
    rewrite repeat_app.
    rewrite (exec_app _ _ _ _ _ (IH ltac:(lia) ltac:(lia))).
    destruct (nth_error (ports cfg) k) as [port|] eqn:En.
    + apply (launched_next cfg k port); [lia | exact En].
    + apply nth_error_None in En. lia.
Qed.

Lemma launched_in_flight :
  forall cfg k, (k <= length (ports cfg))%nat ->
  in_flight (launched cfg k) = k
  /\ countb probing (workers (launched cfg k)) = k.
Proof.
  intros cfg k Hk. unfold in_flight, countb. cbn [launched workers].
  assert (H : forall (f : Worker -> bool) l,
            (forall p, f {| arg_p := p; pc := WScan |} = true) ->
            length (filter f (map (fun p => {| arg_p := p; pc := WScan |})
                                l)) = length l).
  { intros f l Hf. induction l as [|p l IHl]; [reflexivity|].
    cbn [map filter]. rewrite Hf. simpl. now rewrite IHl. }
  rewrite !H by reflexivity.
  rewrite length_firstn. lia.
Qed.

(** X18. The ceiling is reached: when the list has at least [threads]
    ports, some schedule leads to a state in which [threads] goroutines
    hold a slot, all of them inside [scanPort]; if a port is left, main
    then adds to [wg] and blocks at its send on [sem]. *)
Theorem X18_ceiling_attained :
  forall (cfg : Scan),
  (threads cfg <= length (ports cfg))%nat ->
  exists sched s,
    exec cfg sched init = Next s
    /\ in_flight s = threads cfg
    /\ countb probing (workers s) = threads cfg
    /\ ((threads cfg < length (ports cfg))%nat ->
        exists s', step cfg TMain s = Next s'
                   /\ wg s' = S (threads cfg)
                   /\ step cfg TMain s' = Blocked).
Proof.
  intros cfg Hl.
  exists (repeat TMain (3 * threads cfg)), (launched cfg (threads cfg)).
  destruct (launched_in_flight cfg (threads cfg) Hl) as [Hi Hp].
  split; [now apply launched_reachable|]. split; [exact Hi|].
  split; [exact Hp|].
  intros Hlt.
  destruct (nth_error (ports cfg) (threads cfg)) as [port|] eqn:En.
  - eexists. cbn [step]. unfold main_step at 1. cbn [launched main_pc].
    rewrite En. split; [reflexivity|]. split; [reflexivity|].
    unfold main_step. cbn [main_pc sem]. now rewrite Nat.ltb_irrefl.
  - apply nth_error_None in En. lia.
Qed.

Lemma X18_witness :
  (threads scan_three <= length (ports scan_three))%nat
  /\ exists sched s,
       exec scan_three sched init = Next s
       /\ in_flight s = 2%nat
       /\ countb probing (workers s) = 2%nat
       /\ ((2 < 3)%nat ->
           exists s', step scan_three TMain s = Next s'
                      /\ wg s' = 3%nat
                      /\ step scan_three TMain s' = Blocked).
Proof.
  assert (H : (threads scan_three <= length (ports scan_three))%nat)
    by (simpl; lia).
  split; [exact H|].
  exact (X18_ceiling_attained scan_three H).
Defined.

(** X19. [timeoutDuration] is the flag in nanoseconds exactly when the
    product fits a 64-bit integer, that is for at most 9223372036854 ms
    on either side of zero; the timeout given to [isHostAlive] is twice
    that exactly for at most 4611686018427 ms on either side of zero. *)
Theorem X19_timeout_overflow :
  forall (ms : Z),
  (timeoutDuration ms = ms * Millisecond
   <-> - 9223372036854 <= ms <= 9223372036854)
  /\ (alive_timeout ms = 2 * (ms * Millisecond)
      <-> - 4611686018427 <= ms <= 4611686018427).
Proof.
  intros ms. unfold alive_timeout, timeoutDuration, Millisecond.
  split; split.
  - intros H. pose proof (wrap_int_range (ms * 1000000)) as R.
    rewrite H in R. unfold min_int, max_int in R. lia.
  - intros H. apply wrap_int_id. unfold min_int, max_int. lia.
  - intros H.
    pose proof (wrap_int_range (wrap_int (ms * 1000000) * 2)) as R.
    rewrite H in R. unfold min_int, max_int in R. lia.
  - intros H. rewrite (wrap_int_id (ms * 1000000))
      by (unfold min_int, max_int; lia).
    rewrite wrap_int_id by (unfold min_int, max_int; lia). lia.
Qed.
